(** * bvh/utilities.hpp: a shallow embedding and its properties

    The header [include/bvh/utilities.hpp] holds small utilities of the BVH
    library: the bit reinterpretation [as], the sign combination
    [product_sign], the lock-free [atomic_max], the in-place permutation
    [shuffle_primitives], the extraction loop
    [compute_bounding_boxes_and_centers] and the compile-time logarithm
    [RoundedUpLog2].  Each is embedded below as an executable Rocq function
    that follows the C++ text statement by statement.

    Data model of the target (the usual LP64 one): [int] is 32 bits wide and
    signed, [size_t] and [uint64_t] are 64 bits wide and unsigned, [uint32_t]
    and [float] occupy 4 bytes, [double] occupies 8 bytes, floating-point
    values are IEEE-754 binary32/binary64 and share the byte order of the
    integers.  Integers are [Z] with the wrap-around written out. *)

From Stdlib Require Import ZArith Lia Bool.
From Stdlib Require Import Strings.Byte.
From Stdlib Require Import Floats.SpecFloat.
From stdpp Require Import base list.

Local Open Scope Z_scope.

(** ** Outcomes of C++ constructs

    A template instantiation or a call either produces a value, is rejected
    by the compiler, or runs into undefined behaviour. *)
Inductive outcome (A : Type) : Type :=
| Ok (a : A)
| Rejected
| Undefined.
Arguments Ok {A} a.
Arguments Rejected {A}.
Arguments Undefined {A}.

#[global] Instance outcome_ret : MRet outcome := fun A a => Ok a.

#[global] Instance outcome_bind : MBind outcome := fun A B k m =>
  match m with
  | Ok a => k a
  | Rejected => Rejected
  | Undefined => Undefined
  end.

(** ** Machine integers *)

Definition int_bits : Z := 32.
Definition size_t_bits : Z := 64.

(** Value of an unsigned 32-bit pattern read back as [int]. *)
Definition to_int (r : Z) : Z :=
  if r <? 2 ^ (int_bits - 1) then r else r - 2 ^ int_bits.

(** Conversion of an [int] to [size_t] (usual arithmetic conversions). *)
Definition size_t_of_int (v : Z) : Z := v mod 2 ^ size_t_bits.

(** [size_t] addition. *)
Definition size_t_add (a b : Z) : Z := (a + b) mod 2 ^ size_t_bits.

(** [E1 << E2] with [E1] a non-negative [int].  The shift count must lie in
    [0, 32); the product [E1 * 2^E2] must be representable in
    [unsigned int], and is then converted to [int].  Everything else is
    undefined: [None]. *)
Definition int_shl (e1 e2 : Z) : option Z :=
  if (0 <=? e2) && (e2 <? int_bits) then
    let r := e1 * 2 ^ e2 in
    if (0 <=? e1) && (r <? 2 ^ int_bits) then Some (to_int r) else None
  else None.

(** ** [RoundedUpLog2]

<<
template <size_t P, size_t I = 0, bool Found = P == 0>
struct RoundedUpLog2 {};
template <size_t P, size_t I>
struct RoundedUpLog2<P, I, false> {
    static constexpr size_t value = RoundedUpLog2<P, I + 1, (1 << (I + 1)) >= P>::value;
};
template <size_t P, size_t I>
struct RoundedUpLog2<P, I, true> {
    static constexpr size_t value = I;
};
>>

    [RoundedUpLog2_inst depth P I Found] is the member [value] of the
    instantiation [RoundedUpLog2<P, I, Found>]; [depth] bounds the number of
    nested instantiations the compiler still accepts.  The program is
    [Rejected] when that bound is exceeded or when the template argument
    [(1 << (I + 1)) >= P] is not a constant expression. *)
Fixpoint RoundedUpLog2_inst (depth : nat) (P I : Z) (Found : bool) : outcome Z :=
  if Found then Ok I
  else
    match depth with
    | O => Rejected
    | S depth' =>
        match int_shl 1 (size_t_add I 1) with
        | None => Rejected
        | Some v =>
            RoundedUpLog2_inst depth' P (size_t_add I 1) (size_t_of_int v >=? P)
        end
    end.

(** [RoundedUpLog2<P>::value], with the default arguments [I = 0] and
    [Found = (P == 0)]. *)
Definition RoundedUpLog2 (depth : nat) (P : Z) : outcome Z :=
  RoundedUpLog2_inst depth P 0 (P =? 0).

(** [k] is the rounded-up base-2 logarithm of [P]: the least [k] with
    [2^k >= P]. *)
Definition is_ceil_log2 (P k : Z) : Prop :=
  0 <= k /\ P <= 2 ^ k /\ forall j, 0 <= j < k -> 2 ^ j < P.

(** ** Object representations

    A value is stored as a little-endian sequence of bytes.  [le_value]
    reads the bytes of an unsigned integer object, [le_object] writes the
    [n] bytes of an unsigned integer (reduced modulo [2^(8n)]). *)

Definition byte_to_Z (b : Byte.byte) : Z := Z.of_N (Byte.to_N b).

Definition byte_of_Z (v : Z) : Byte.byte :=
  match Byte.of_N (Z.to_N (v mod 256)) with
  | Some b => b
  | None => Byte.x00
  end.

Fixpoint le_value (bs : list Byte.byte) : Z :=
  match bs with
  | [] => 0
  | b :: rest => byte_to_Z b + 256 * le_value rest
  end.

Fixpoint le_object (n : nat) (v : Z) : list Byte.byte :=
  match n with
  | O => []
  | S n' => byte_of_Z v :: le_object n' (v / 256)
  end.

(** Storage of a local variable: one cell per byte, [None] while the byte
    is indeterminate. *)
Definition storage : Type := list (option Byte.byte).

(** [To to;] for a scalar type of [n] bytes: nothing is initialised. *)
Definition declare (n : nat) : storage := replicate n None.

(** [std::memcpy(dst, src, n)]: copies [n] bytes; reading or writing past
    either object is undefined. *)
Definition memcpy (dst : storage) (src : list Byte.byte) (n : nat) : outcome storage :=
  if (n <=? length dst)%nat && (n <=? length src)%nat
  then Ok ((Some <$> take n src) ++ drop n dst)
  else Undefined.

(** Reading the value of a variable: undefined while a byte of it is
    indeterminate. *)
Fixpoint load_object (s : storage) : outcome (list Byte.byte) :=
  match s with
  | [] => Ok []
  | None :: _ => Undefined
  | Some b :: rest => bs ← load_object rest; mret (b :: bs)
  end.

(** ** [as]

<<
template <typename To, typename From>
To as(From from) {
    To to;
    std::memcpy(&to, &from, sizeof(from));
    return to;
}
>>

    [from] is the object representation of the argument (so
    [length from = sizeof(From)]) and [sizeof_To] is [sizeof(To)].  The
    template has no requirement on the two sizes, so no instantiation of it
    is [Rejected]. *)
Definition as_ (sizeof_To : nat) (from : list Byte.byte) : outcome (list Byte.byte) :=
  let to := declare sizeof_To in
  to ← memcpy to from (length from);
  load_object to.

Definition sizeof_float : nat := 4.
Definition sizeof_double : nat := 8.
Definition sizeof_uint32_t : nat := 4.
Definition sizeof_uint64_t : nat := 8.

(** [as<uint32_t>(x)] and [as<uint64_t>(x)]: the result is an integer. *)
Definition as_uint32_t (from : list Byte.byte) : outcome Z :=
  bs ← as_ sizeof_uint32_t from; mret (le_value bs).

Definition as_uint64_t (from : list Byte.byte) : outcome Z :=
  bs ← as_ sizeof_uint64_t from; mret (le_value bs).

(** [as<float>(v)] with [v] a [uint32_t], [as<double>(v)] with [v] a
    [uint64_t]: the result is a floating-point object. *)
Definition as_float (v : Z) : outcome (list Byte.byte) :=
  as_ sizeof_float (le_object sizeof_uint32_t v).

Definition as_double (v : Z) : outcome (list Byte.byte) :=
  as_ sizeof_double (le_object sizeof_uint64_t v).

(** ** [product_sign]

<<
inline float product_sign(float x, float y) {
    return as<float>(as<uint32_t>(x) ^ (as<uint32_t>(y) & UINT32_C(0x80000000)));
}
inline double product_sign(double x, double y) {
    return as<double>(as<uint64_t>(x) ^ (as<uint64_t>(y) & UINT64_C(0x8000000000000000)));
}
>>

    A [float] or [double] argument is given by its object representation.
    Neither overload multiplies. *)
Definition product_sign_float (x y : list Byte.byte) : outcome (list Byte.byte) :=
  xb ← as_uint32_t x;
  yb ← as_uint32_t y;
  as_float (Z.lxor xb (Z.land yb 0x80000000)).

Definition product_sign_double (x y : list Byte.byte) : outcome (list Byte.byte) :=
  xb ← as_uint64_t x;
  yb ← as_uint64_t y;
  as_double (Z.lxor xb (Z.land yb 0x8000000000000000)).

(** The integer expression both overloads evaluate, [w] being the width of
    the format (32 or 64) and [2^(w-1)] the mask constant. *)
Definition sign_xor (w x y : Z) : Z := Z.lxor x (Z.land y (2 ^ (w - 1))).

(** ** IEEE-754 reading of a bit pattern

    The reference semantics against which [product_sign] is compared:
    [std::copysign] and the floating-point product.  A binary interchange
    format of [w] bits with precision [prec] (hidden bit included) and
    exponent bound [emax] stores the sign in bit [w - 1], the biased
    exponent in the next [w - prec] bits and the trailing significand in the
    low [prec - 1] bits.  binary32 is [prec = 24], [emax = 128]; binary64 is
    [prec = 53], [emax = 1024]. *)
Section IEEE.
Variables (w prec emax : Z).

Definition sign_bit (bits : Z) : bool := Z.testbit bits (w - 1).
Definition exponent_field (bits : Z) : Z := (bits / 2 ^ (prec - 1)) mod 2 ^ (w - prec).
Definition significand_field (bits : Z) : Z := bits mod 2 ^ (prec - 1).

Definition decode (bits : Z) : spec_float :=
  let s := sign_bit bits in
  let e := exponent_field bits in
  let m := significand_field bits in
  if e =? 0 then
    match m with
    | Zpos p => S754_finite s p (emin prec emax)
    | _ => S754_zero s
    end
  else if e =? 2 ^ (w - prec) - 1 then
    if m =? 0 then S754_infinity s else S754_nan
  else
    match m + 2 ^ (prec - 1) with
    | Zpos p => S754_finite s p (e + emin prec emax - 1)
    | _ => S754_nan
    end.

(** Finite values: zeros, subnormal and normal numbers. *)
Definition is_finite (f : spec_float) : bool :=
  match f with
  | S754_zero _ | S754_finite _ _ _ => true
  | S754_infinity _ | S754_nan => false
  end.

(** The sign of a floating-point datum; the sign of a NaN is not
    recorded by [spec_float]. *)
Definition sign_of (f : spec_float) : option bool :=
  match f with
  | S754_zero s | S754_infinity s | S754_finite s _ _ => Some s
  | S754_nan => None
  end.

(** [copysign(x, v)]: [x] with its sign bit replaced by the sign of [v],
    all other bits of [x] kept. *)
Definition copysign (x_bits : Z) (v : spec_float) : option Z :=
  s ← sign_of v;
  Some (Z.lor (Z.land x_bits (Z.ones (w - 1))) (Z.shiftl (Z.b2z s) (w - 1))).

(** The floating-point product [x * y] of two bit patterns. *)
Definition fmul (x_bits y_bits : Z) : spec_float :=
  SFmul prec emax (decode x_bits) (decode y_bits).
End IEEE.

Definition decode_float : Z -> spec_float := decode 32 24 128.
Definition decode_double : Z -> spec_float := decode 64 53 1024.
Definition copysign_float : Z -> spec_float -> option Z := copysign 32.
Definition copysign_double : Z -> spec_float -> option Z := copysign 64.
Definition fmul_float : Z -> Z -> spec_float := fmul 32 24 128.
Definition fmul_double : Z -> Z -> spec_float := fmul 64 53 1024.

(** ** [atomic_max]

<<
template <typename Scalar>
void atomic_max(std::atomic<Scalar>& x, Scalar y) {
    auto z = x.load();
    while (z < y && !x.compare_exchange_weak(z, y)) ;
}
>>

    The shared scalar is a cell holding a totally ordered value (an
    integer) together with the log of the atomic operations performed on
    it, newest first.  Execution is sequential: no other thread touches the
    cell during the call. *)
Inductive access : Type :=
| Load (seen : Z)
| CasFailed (expected desired : Z)
| CasStored (expected desired : Z).

Record atomic : Type := mk_atomic { contents : Z; history : list access }.

(** [x.load()]. *)
Definition atomic_load (x : atomic) : Z * atomic :=
  (contents x, mk_atomic (contents x) (Load (contents x) :: history x)).

(** [x.compare_exchange_weak(expected, desired)].  Returns the success
    flag, the updated [expected] and the cell.  When the cell holds
    [expected] the exchange stores [desired], unless it fails spuriously
    ([spurious = true]), in which case nothing is stored.  When the cell
    holds something else, that value is written to [expected]. *)
Definition compare_exchange_weak (spurious : bool) (x : atomic) (expected desired : Z)
  : bool * Z * atomic :=
  if contents x =? expected then
    if spurious
    then (false, contents x, mk_atomic (contents x) (CasFailed expected desired :: history x))
    else (true, expected, mk_atomic desired (CasStored expected desired :: history x))
  else (false, contents x, mk_atomic (contents x) (CasFailed expected desired :: history x)).

(** The [while] loop.  [spurious] lists, attempt by attempt, whether the
    weak exchange fails spuriously; past its end no attempt does.  [fuel]
    bounds the number of evaluations of the loop condition. *)
Fixpoint atomic_max_loop (fuel : nat) (spurious : list bool) (x : atomic) (z y : Z)
  : option atomic :=
  match fuel with
  | O => None
  | S fuel' =>
      if z <? y then
        let '(ok, z', x') := compare_exchange_weak (default false (head spurious)) x z y in
        if ok then Some x' else atomic_max_loop fuel' (tail spurious) x' z' y
      else Some x
  end.

Definition atomic_max (fuel : nat) (spurious : list bool) (x : atomic) (y : Z)
  : option atomic :=
  let '(z, x) := atomic_load x in
  atomic_max_loop fuel spurious x z y.

(** ** Arrays and counted loops

    An array is a list; an access outside of it is undefined behaviour,
    rendered as [None]. *)
Definition store {A : Type} (a : list A) (i : nat) (v : A) : option (list A) :=
  if decide (i < length a)%nat then Some (<[i := v]> a) else None.

(** [for (size_t i = first; i < first + count; ++i) body]. *)
Fixpoint for_range {St : Type} (first count : nat) (body : nat -> St -> option St) (s : St)
  : option St :=
  match count with
  | O => Some s
  | S count' => s' ← body first s; for_range (S first) count' body s'
  end.

(** ** [shuffle_primitives]

<<
template <typename Primitive>
void shuffle_primitives(Primitive* primitives, const size_t* indices, size_t primitive_count) {
    auto primitives_copy = std::make_unique<Primitive[]>(primitive_count);
    std::move(primitives, primitives + primitive_count, primitives_copy.get());
    for (size_t i = 0; i < primitive_count; ++i)
        primitives[i] = std::move(primitives_copy[indices[i]]);
}
>>

    A move assignment [dst = std::move(src)] gives [dst] the value of [src]
    and leaves [src] in the moved-from state [moved_from src] of the
    primitive type (the identity for trivially copyable primitives). *)
Section Shuffle.
Context {Primitive : Type}.
Variable value_initialized : Primitive.
Variable moved_from : Primitive -> Primitive.

Record shuffle_state : Type :=
  mk_shuffle { primitives : list Primitive; primitives_copy : list Primitive }.

(** [std::make_unique<Primitive[]>(n)]. *)
Definition make_unique_array (n : nat) : list Primitive := replicate n value_initialized.

(** One step of [std::move(first, last, d_first)]:
    [primitives_copy[k] = std::move(primitives[k])]. *)
Definition move_out (k : nat) (s : shuffle_state) : option shuffle_state :=
  p ← primitives s !! k;
  copy' ← store (primitives_copy s) k p;
  Some (mk_shuffle (<[k := moved_from p]> (primitives s)) copy').

(** The loop body: [primitives[i] = std::move(primitives_copy[indices[i]])]. *)
Definition move_back (indices : list nat) (i : nat) (s : shuffle_state)
  : option shuffle_state :=
  j ← indices !! i;
  p ← primitives_copy s !! j;
  prims' ← store (primitives s) i p;
  Some (mk_shuffle prims' (<[j := moved_from p]> (primitives_copy s))).

(** The whole function; the result is the array [primitives] on return
    (the staging copy is destroyed). *)
Definition shuffle_primitives (prims : list Primitive) (indices : list nat)
    (primitive_count : nat) : option (list Primitive) :=
  let s := mk_shuffle prims (make_unique_array primitive_count) in
  s ← for_range 0 primitive_count move_out s;
  s ← for_range 0 primitive_count (move_back indices) s;
  Some (primitives s).
End Shuffle.

(** ** [compute_bounding_boxes_and_centers]

<<
template <typename Primitive, typename Scalar = typename Primitive::ScalarType>
std::pair<std::unique_ptr<BoundingBox<Scalar>[]>, std::unique_ptr<Vector3<Scalar>[]>>
compute_bounding_boxes_and_centers(const Primitive* primitives, size_t primitive_count) {
    auto bboxes  = std::make_unique<BoundingBox<Scalar>[]>(primitive_count);
    auto centers = std::make_unique<Vector3<Scalar>[]>(primitive_count);
    #pragma omp parallel for
    for (size_t i = 0; i < primitive_count; ++i) {
        bboxes[i]  = primitives[i].bounding_box();
        centers[i] = primitives[i].center();
    }
    return std::make_pair(std::move(bboxes), std::move(centers));
}
>>

    The primitive type supplies [bounding_box] and [center]; the box and
    vector types supply their value-initialised element. *)
Section Extraction.
Context {Primitive BoundingBox Vector3 : Type}.
Variable bounding_box : Primitive -> BoundingBox.
Variable center : Primitive -> Vector3.
Variable empty_box : BoundingBox.
Variable zero_vector : Vector3.

(** The three arrays the function touches. *)
Record extraction_state : Type :=
  mk_extraction {
    input : list Primitive;
    bboxes : list BoundingBox;
    centers : list Vector3
  }.

(** The two statements of the loop body, for iteration [i]. *)
Inductive statement : Type :=
| StoreBox (i : nat)
| StoreCenter (i : nat).

#[global] Instance statement_eq_dec : EqDecision statement.
Proof. solve_decision. Defined.

(** The primitive a statement reads and the slot it writes. *)
Definition slot (st : statement) : nat :=
  match st with
  | StoreBox i | StoreCenter i => i
  end.

Definition exec (st : statement) (s : extraction_state) : option extraction_state :=
  match st with
  | StoreBox i =>
      p ← input s !! i;
      b ← store (bboxes s) i (bounding_box p);
      Some (mk_extraction (input s) b (centers s))
  | StoreCenter i =>
      p ← input s !! i;
      c ← store (centers s) i (center p);
      Some (mk_extraction (input s) (bboxes s) c)
  end.

(** The loop body of iteration [i]. *)
Definition extraction_body (i : nat) (s : extraction_state) : option extraction_state :=
  s ← exec (StoreBox i) s; exec (StoreCenter i) s.

(** State on entry to the loop, after the two allocations. *)
Definition extraction_init (prims : list Primitive) (primitive_count : nat)
  : extraction_state :=
  mk_extraction prims (replicate primitive_count empty_box)
                (replicate primitive_count zero_vector).

(** The arrays of a state have the shape the loop expects: the input is
    [prims], both outputs have [primitive_count] slots. *)
Definition shaped (prims : list Primitive) (primitive_count : nat)
    (s : extraction_state) : Prop :=
  input s = prims ∧ length (bboxes s) = primitive_count
  ∧ length (centers s) = primitive_count.

(** Sequential execution of the function (the pragma ignored); the state
    on return. *)
Definition extraction_run (prims : list Primitive) (primitive_count : nat)
  : option extraction_state :=
  for_range 0 primitive_count extraction_body (extraction_init prims primitive_count).

Definition compute_bounding_boxes_and_centers (prims : list Primitive)
    (primitive_count : nat) : option (list BoundingBox * list Vector3) :=
  s ← extraction_run prims primitive_count;
  Some (bboxes s, centers s).

(** Execution of the statements in the order given by a schedule. *)
Fixpoint exec_all (sched : list statement) (s : extraction_state)
  : option extraction_state :=
  match sched with
  | [] => Some s
  | st :: rest => s' ← exec st s; exec_all rest s'
  end.

(** The statements of the loop in program order, iterations
    [first .. first + count - 1]. *)
Fixpoint program_order (first count : nat) : list statement :=
  match count with
  | O => []
  | S count' => StoreBox first :: StoreCenter first :: program_order (S first) count'
  end.

(** A schedule of the parallel loop: the workers execute every statement
    of every iteration exactly once, interleaved in some order. *)
Definition parallel_schedule (primitive_count : nat) (sched : list statement) : Prop :=
  sched ≡ₚ program_order 0 primitive_count.

(** Execution of the function under a schedule of the parallel loop. *)
Definition compute_bounding_boxes_and_centers_par (sched : list statement)
    (prims : list Primitive) (primitive_count : nat)
  : option (list BoundingBox * list Vector3) :=
  s ← exec_all sched (extraction_init prims primitive_count);
  Some (bboxes s, centers s).
End Extraction.

(** ** [SimilarlySizedIndex]

<<
template <typename T>
struct SimilarlySizedIndex {};
template <> struct SimilarlySizedIndex<float>  { using IndexType = uint32_t; };
template <> struct SimilarlySizedIndex<double> { using IndexType = uint64_t; };
>>

    [SimilarlySizedIndex T] is the member [IndexType] of the instantiation
    at the scalar type [T]; the primary template has no such member, so
    naming it is [Rejected]. *)
Inductive scalar_type : Type :=
| Float
| Double
| Uint32_t
| Uint64_t
| Int
| Size_t.

(** [sizeof(T)] in the data model of the header. *)
Definition sizeof (T : scalar_type) : nat :=
  match T with
  | Float => sizeof_float
  | Double => sizeof_double
  | Uint32_t => sizeof_uint32_t
  | Uint64_t => sizeof_uint64_t
  | Int => 4
  | Size_t => 8
  end.

Definition SimilarlySizedIndex (T : scalar_type) : outcome scalar_type :=
  match T with
  | Float => Ok Uint32_t
  | Double => Ok Uint64_t
  | _ => Rejected
  end.

(** ** Sequences of calls *)

(** Successive calls [atomic_max(x, y)] on one cell, each with its own list
    of spurious failures. *)
Fixpoint atomic_max_each (fuel : nat) (x : atomic) (calls : list (list bool * Z))
  : option atomic :=
  match calls with
  | [] => Some x
  | (spurious, y) :: rest =>
      x' ← atomic_max fuel spurious x y; atomic_max_each fuel x' rest
  end.

(** Number of times [j] occurs in a list of indices. *)
Fixpoint occurrences (j : nat) (l : list nat) : nat :=
  match l with
  | [] => O
  | k :: rest => ((if decide (k = j) then 1 else 0) + occurrences j rest)%nat
  end.

(** The index array that reads through [p] what [q] selects:
    [compose_indices p q] holds [p[q[i]]] at [i]. *)
Definition compose_indices (p q : list nat) : list nat :=
  (fun j => default O (p !! j)) <$> q.

(** * Properties *)

(** Splits a conjunction into its parts, and nothing else. *)
Ltac conjuncts := repeat match goal with |- _ /\ _ => split end.

(** ** [RoundedUpLog2] *)

Lemma size_t_add_small (a b : Z) :
  0 <= a + b < 2 ^ 64 -> size_t_add a b = a + b.
Proof. intros H. unfold size_t_add, size_t_bits. now apply Z.mod_small. Qed.

Lemma int_shl_one (n : Z) :
  0 <= n < 32 -> int_shl 1 n = Some (to_int (2 ^ n)).
Proof.
  intros [H0 H1]. unfold int_shl, int_bits.
  assert (2 ^ n < 2 ^ 32) by (apply Z.pow_lt_mono_r; lia).
  rewrite (proj2 (Z.leb_le 0 n) H0), (proj2 (Z.ltb_lt n 32) H1).
  cbn [andb]. rewrite Z.mul_1_l.
  rewrite (proj2 (Z.ltb_lt _ _) H). reflexivity.
Qed.

(** Below bit 31 the shifted one is itself; at bit 31 it wraps to the most
    negative [int], which converts to a huge [size_t]. *)
Lemma shifted_one_as_size_t (n : Z) :
  0 <= n < 32 ->
  size_t_of_int (to_int (2 ^ n)) = if n <? 31 then 2 ^ n else 2 ^ 64 - 2 ^ 31.
Proof.
  intros [H0 H1]. unfold size_t_of_int, to_int, int_bits, size_t_bits.
  change (32 - 1) with 31.
  destruct (Z.ltb_spec n 31) as [Hn | Hn].
  - assert (2 ^ n < 2 ^ 31) by (apply Z.pow_lt_mono_r; lia).
    rewrite (proj2 (Z.ltb_lt _ _) H).
    assert (0 < 2 ^ n) by (apply Z.pow_pos_nonneg; lia).
    apply Z.mod_small. change (2 ^ 31) with 2147483648 in H.
    change (2 ^ 64) with 18446744073709551616. lia.
  - assert (n = 31) as -> by lia. reflexivity.
Qed.

Lemma RoundedUpLog2_inst_found (depth : nat) (P I : Z) :
  RoundedUpLog2_inst depth P I true = Ok I.
Proof. destruct depth; reflexivity. Qed.

(** The instantiation chain started at a non-matching [I] stops at the first
    exponent above [I] whose power reaches [P], as long as [P <= 2^31]. *)
Lemma RoundedUpLog2_inst_search (P : Z) (depth : nat) :
  forall I,
    0 <= I -> 2 ^ I < P -> P <= 2 ^ 31 -> 31 - I <= Z.of_nat depth ->
    exists k, RoundedUpLog2_inst depth P I false = Ok k
              /\ I < k /\ P <= 2 ^ k /\ 2 ^ (k - 1) < P.
Proof.
  induction depth as [| depth IH]; intros I HI Hlow Hhigh Hdepth.
  - assert (I < 31) by (apply (Z.pow_lt_mono_r_iff 2); lia). lia.
  - assert (I < 31) as HI31 by (apply (Z.pow_lt_mono_r_iff 2); lia).
    cbn [RoundedUpLog2_inst].
    rewrite size_t_add_small by (change (2 ^ 64) with 18446744073709551616; lia).
    rewrite int_shl_one by lia.
    rewrite shifted_one_as_size_t by lia. rewrite Z.geb_leb.
    destruct (Z.ltb_spec (I + 1) 31) as [Hlt | Hge].
    + destruct (Z.leb_spec P (2 ^ (I + 1))) as [Hfound | Hnot].
      * exists (I + 1). replace (I + 1 - 1) with I by lia.
        conjuncts; [apply RoundedUpLog2_inst_found | lia | exact Hfound | exact Hlow].
      * apply IH in Hnot as (k & Hk & Hlt' & Hup & Hdown); [| lia | lia | lia].
        exists k. conjuncts; [exact Hk | lia | exact Hup | exact Hdown].
    + assert (I + 1 = 31) as HI1 by lia. rewrite HI1.
      assert (P <= 2 ^ 64 - 2 ^ 31) as Hbig
          by (change (2 ^ 31) with 2147483648 in *;
              change (2 ^ 64) with 18446744073709551616; lia).
      rewrite (proj2 (Z.leb_le _ _) Hbig).
      exists 31. replace (31 - 1) with I by lia.
      conjuncts; [apply RoundedUpLog2_inst_found | lia | exact Hhigh | exact Hlow].
Qed.

(** On [2 <= P <= 2^31] the helper is the rounded-up logarithm, given room
    for 31 nested instantiations. *)
Lemma RoundedUpLog2_correct (depth : nat) (P : Z) :
  2 <= P <= 2 ^ 31 -> (31 <= depth)%nat ->
  exists k, RoundedUpLog2 depth P = Ok k /\ is_ceil_log2 P k.
Proof.
  intros [Hlow Hhigh] Hdepth. unfold RoundedUpLog2.
  rewrite (proj2 (Z.eqb_neq P 0)) by lia.
  destruct (RoundedUpLog2_inst_search P depth 0) as (k & Hk & Hpos & Hup & Hdown);
    [lia | change (2 ^ 0) with 1; lia | exact Hhigh | lia |].
  exists k. split; [exact Hk |]. unfold is_ceil_log2. conjuncts; [lia | exact Hup |].
  intros j [Hj0 Hjk].
  apply Z.le_lt_trans with (2 ^ (k - 1)); [| exact Hdown].
  apply Z.pow_le_mono_r; lia.
Qed.

(** The rounded-up logarithm is unique, and that of 1 is 0. *)
Lemma is_ceil_log2_unique (P k k' : Z) :
  is_ceil_log2 P k -> is_ceil_log2 P k' -> k = k'.
Proof.
  intros (H0 & Hup & Hmin) (H0' & Hup' & Hmin').
  destruct (Z.lt_trichotomy k k') as [Hlt | [Heq | Hgt]]; [| exact Heq |].
  - specialize (Hmin' k ltac:(lia)). lia.
  - specialize (Hmin k' ltac:(lia)). lia.
Qed.

Lemma is_ceil_log2_one : is_ceil_log2 1 0.
Proof.
  unfold is_ceil_log2. conjuncts; [lia | change (2 ^ 0) with 1; lia | intros j Hj; lia].
Qed.

(** C1 (the code departs from the claim at [P = 1]).  [RoundedUpLog2<1>::value]
    is 1: the default [Found] is [P == 0], so the first candidate compared
    with [P] is [1 << 1]; the exponent 0 is never tried.  The rounded-up
    logarithm of 1, the least [k] with [2^k >= 1], is 0 and not 1. *)
Theorem RoundedUpLog2_of_one (depth : nat) :
  RoundedUpLog2 (S depth) 1 = Ok 1 /\ is_ceil_log2 1 0 /\ ~ is_ceil_log2 1 1.
Proof.
  split; [exact (RoundedUpLog2_inst_found depth 1 1) |].
  split; [exact is_ceil_log2_one |].
  intros H. pose proof (is_ceil_log2_unique _ _ _ H is_ceil_log2_one). discriminate.
Qed.

(** The values the specification lists for P = 2, 3, 4, 5 and 1024 are the
    ones the helper yields. *)
Lemma RoundedUpLog2_listed_values (depth : nat) :
  (10 <= depth)%nat ->
  RoundedUpLog2 depth 2 = Ok 1 /\ RoundedUpLog2 depth 3 = Ok 2 /\
  RoundedUpLog2 depth 4 = Ok 2 /\ RoundedUpLog2 depth 5 = Ok 3 /\
  RoundedUpLog2 depth 1024 = Ok 10.
Proof.
  intros H. do 10 (destruct depth as [| depth]; [lia |]).
  destruct depth; conjuncts; reflexivity.
Qed.

(** Above [2^31] the [int] shift no longer reaches [P]: the helper answers
    31 where the logarithm is 32, and for the largest values of [P] the
    shift count reaches 32 and the program is rejected. *)
Lemma RoundedUpLog2_above_int_range :
  RoundedUpLog2 64 (2 ^ 31 + 1) = Ok 31 /\ is_ceil_log2 (2 ^ 31 + 1) 32
  /\ RoundedUpLog2 64 (2 ^ 64 - 1) = Rejected.
Proof.
  split; [reflexivity |]. split; [| reflexivity]. unfold is_ceil_log2.
  conjuncts; [lia | vm_compute; discriminate |].
  intros j Hj. apply Z.le_lt_trans with (2 ^ 31); [apply Z.pow_le_mono_r; lia | lia].
Qed.

(** C9.  [RoundedUpLog2<0>::value] is 0: with [P = 0] the default [Found] is
    true, the terminal specialisation is chosen at [I = 0] and no further
    instantiation is needed, whatever the instantiation depth allowed. *)
Theorem RoundedUpLog2_of_zero (depth : nat) : RoundedUpLog2 depth 0 = Ok 0.
Proof. destruct depth; reflexivity. Qed.

(** ** Object representations *)

Lemma byte_to_Z_range (b : Byte.byte) : 0 <= byte_to_Z b < 256.
Proof. unfold byte_to_Z. pose proof (Byte.to_N_bounded b). lia. Qed.

Lemma byte_to_of_Z (v : Z) : byte_to_Z (byte_of_Z v) = v mod 256.
Proof.
  assert (0 <= v mod 256 < 256) as Hr by (apply Z.mod_pos_bound; lia).
  unfold byte_to_Z, byte_of_Z.
  destruct (Byte.of_N (Z.to_N (v mod 256))) as [b |] eqn:E.
  - apply Byte.to_of_N in E. rewrite E. lia.
  - apply Byte.of_N_None_iff in E. lia.
Qed.

Lemma byte_of_to_Z (b : Byte.byte) : byte_of_Z (byte_to_Z b) = b.
Proof.
  pose proof (byte_to_Z_range b) as Hr. unfold byte_of_Z.
  rewrite Z.mod_small by exact Hr. unfold byte_to_Z.
  rewrite N2Z.id, Byte.of_to_N. reflexivity.
Qed.

Lemma length_le_object (n : nat) : forall v, length (le_object n v) = n.
Proof. induction n as [| n IH]; intros v; cbn; [| rewrite IH]; reflexivity. Qed.

Lemma le_value_range (bs : list Byte.byte) :
  0 <= le_value bs < 2 ^ (8 * Z.of_nat (length bs)).
Proof.
  induction bs as [| b bs IH]; cbn [le_value length].
  - change (2 ^ (8 * Z.of_nat 0)) with 1. lia.
  - pose proof (byte_to_Z_range b).
    replace (8 * Z.of_nat (S (length bs))) with (8 + 8 * Z.of_nat (length bs)) by lia.
    rewrite Z.pow_add_r by lia. change (2 ^ 8) with 256. lia.
Qed.

Lemma le_value_le_object (n : nat) :
  forall v, le_value (le_object n v) = v mod 2 ^ (8 * Z.of_nat n).
Proof.
  induction n as [| n IH]; intros v; cbn [le_object le_value].
  - change (2 ^ (8 * Z.of_nat 0)) with 1. now rewrite Z.mod_1_r.
  - rewrite IH, byte_to_of_Z.
    replace (8 * Z.of_nat (S n)) with (8 + 8 * Z.of_nat n) by lia.
    rewrite Z.pow_add_r by lia. change (2 ^ 8) with 256.
    assert (0 < 2 ^ (8 * Z.of_nat n)) by (apply Z.pow_pos_nonneg; lia).
    rewrite Z.rem_mul_r by lia. reflexivity.
Qed.

Lemma le_object_le_value (bs : list Byte.byte) :
  le_object (length bs) (le_value bs) = bs.
Proof.
  induction bs as [| b bs IH]; cbn [le_object le_value length]; [reflexivity |].
  pose proof (byte_to_Z_range b) as Hb.
  assert ((byte_to_Z b + 256 * le_value bs) / 256 = le_value bs) as ->.
  { rewrite Z.mul_comm, Z.div_add by lia. rewrite Z.div_small by lia. lia. }
  f_equal; [| exact IH].
  rewrite <- (byte_of_to_Z b) at 2. unfold byte_of_Z.
  rewrite Z.mul_comm, Z.mod_add by lia. reflexivity.
Qed.

(** ** [as] *)

Lemma load_object_initialised (bs : list Byte.byte) :
  load_object (Some <$> bs) = Ok bs.
Proof.
  induction bs as [| b bs IH]; cbn; [reflexivity |].
  cbn in IH. rewrite IH. reflexivity.
Qed.

Lemma load_object_indeterminate (bs : list Byte.byte) (rest : storage) :
  load_object ((Some <$> bs) ++ None :: rest) = Undefined.
Proof.
  induction bs as [| b bs IH]; cbn; [reflexivity |].
  cbn in IH. rewrite IH. reflexivity.
Qed.

Lemma as_same_size (n : nat) (from : list Byte.byte) :
  length from = n -> as_ n from = Ok from.
Proof.
  intros <-. unfold as_, memcpy, declare.
  rewrite length_replicate, Nat.leb_refl. cbn [andb].
  rewrite firstn_all, drop_replicate, Nat.sub_diag, app_nil_r.
  apply load_object_initialised.
Qed.

Lemma as_size_mismatch (n : nat) (from : list Byte.byte) :
  length from <> n -> as_ n from = Undefined.
Proof.
  intros Hne. unfold as_, memcpy, declare.
  rewrite length_replicate, Nat.leb_refl, andb_true_r.
  destruct (Nat.leb_spec (length from) n) as [Hle | Hgt]; [| reflexivity].
  rewrite firstn_all, drop_replicate.
  destruct (n - length from)%nat as [| k] eqn:Hk; [lia |].
  apply load_object_indeterminate.
Qed.

Lemma as_not_rejected (n : nat) (from : list Byte.byte) : as_ n from <> Rejected.
Proof.
  destruct (decide (length from = n)) as [Heq | Hne].
  - rewrite as_same_size by exact Heq. discriminate.
  - rewrite as_size_mismatch by exact Hne. discriminate.
Qed.

(** C6, as the code has it.  [as] carries no static assertion: no
    instantiation is rejected by the compiler.  With equal sizes the result
    has, byte for byte, the object representation of the argument; with
    unequal sizes the call is undefined behaviour at run time. *)
Theorem as_unchecked (sizeof_To : nat) (from : list Byte.byte) :
  as_ sizeof_To from <> Rejected
  /\ (length from = sizeof_To -> as_ sizeof_To from = Ok from)
  /\ (length from <> sizeof_To -> as_ sizeof_To from = Undefined).
Proof.
  conjuncts; [apply as_not_rejected | apply as_same_size | apply as_size_mismatch].
Qed.

Lemma as_unchecked_witness :
  as_ 4 (le_object 4 0x3F800000) <> Rejected
  /\ as_ 4 (le_object 4 0x3F800000) = Ok (le_object 4 0x3F800000)
  /\ as_ 8 (le_object 4 0x3F800000) = Undefined.
Proof.
  pose proof (as_unchecked 4 (le_object 4 0x3F800000)) as (Hn & Heq & _).
  pose proof (as_unchecked 8 (le_object 4 0x3F800000)) as (_ & _ & Hne).
  conjuncts; [exact Hn | apply Heq; reflexivity | apply Hne; vm_compute; lia].
Defined.

(** C6 as stated fails: reinterpreting a 4-byte [float] as an 8-byte
    [double] is accepted by the compiler and is undefined at run time. *)
Lemma as_float_to_double_not_rejected :
  length (le_object sizeof_float 0x3F800000) <> sizeof_double
  /\ as_ sizeof_double (le_object sizeof_float 0x3F800000) = Undefined
  /\ as_ sizeof_double (le_object sizeof_float 0x3F800000) <> Rejected.
Proof. conjuncts; [vm_compute; lia | reflexivity | discriminate]. Qed.

(** ** Bits of the sign combination *)

Lemma testbit_above (a n i : Z) :
  0 <= a < 2 ^ n -> n <= i -> Z.testbit a i = false.
Proof.
  intros [H0 Hn] Hi.
  destruct (Z.eq_dec a 0) as [-> | Hnz]; [apply Z.bits_0 |].
  apply Z.bits_above_log2; [exact H0 |].
  apply Z.lt_le_trans with n; [| exact Hi].
  apply Z.log2_lt_pow2; lia.
Qed.

Lemma testbit_b2z (b : bool) (i : Z) : Z.testbit (Z.b2z b) i = b && (i =? 0).
Proof.
  destruct b; cbn [Z.b2z andb]; [| apply Z.bits_0].
  change 1 with (2 ^ 0). rewrite Z.pow2_bits_eqb by lia.
  apply Z.eqb_sym.
Qed.

Section SignBits.
Variable w : Z.
Hypothesis w_pos : 0 < w.

Lemma sign_xor_testbit (x y i : Z) :
  Z.testbit (sign_xor w x y) i
  = xorb (Z.testbit x i) (Z.testbit y i && (i =? w - 1)).
Proof.
  unfold sign_xor. rewrite Z.lxor_spec, Z.land_spec.
  rewrite Z.pow2_bits_eqb by lia. now rewrite (Z.eqb_sym (w - 1) i).
Qed.

Lemma sign_xor_other_bits (x y i : Z) :
  i <> w - 1 -> Z.testbit (sign_xor w x y) i = Z.testbit x i.
Proof.
  intros Hi. rewrite sign_xor_testbit.
  rewrite (proj2 (Z.eqb_neq i (w - 1)) Hi), andb_false_r. apply xorb_false_r.
Qed.

Lemma sign_xor_range (x y : Z) :
  0 <= x < 2 ^ w -> 0 <= sign_xor w x y < 2 ^ w.
Proof.
  intros Hx.
  assert (sign_xor w x y mod 2 ^ w = sign_xor w x y) as <-.
  { apply Z.bits_inj'. intros i Hi.
    destruct (Z.lt_ge_cases i w) as [Hlt | Hge].
    - now rewrite Z.mod_pow2_bits_low by lia.
    - rewrite Z.mod_pow2_bits_high by lia.
      rewrite sign_xor_testbit, (testbit_above x w i) by lia.
      rewrite (proj2 (Z.eqb_neq i (w - 1))) by lia.
      now rewrite andb_false_r. }
  apply Z.mod_pos_bound. apply Z.pow_pos_nonneg; lia.
Qed.

(** The expression replaces the sign bit of [x] by the exclusive or of the
    two sign bits and keeps every other bit. *)
Lemma sign_xor_replaces_sign (x y : Z) :
  0 <= x < 2 ^ w ->
  sign_xor w x y
  = Z.lor (Z.land x (Z.ones (w - 1)))
          (Z.shiftl (Z.b2z (xorb (Z.testbit x (w - 1)) (Z.testbit y (w - 1)))) (w - 1)).
Proof.
  intros Hx. apply Z.bits_inj'. intros i Hi.
  rewrite sign_xor_testbit, Z.lor_spec, Z.land_spec.
  rewrite Z.testbit_ones by lia. rewrite Z.shiftl_spec by lia.
  rewrite testbit_b2z.
  rewrite (proj2 (Z.leb_le 0 i) Hi). cbn [andb].
  destruct (Z.lt_trichotomy i (w - 1)) as [Hlt | [-> | Hgt]].
  - rewrite (proj2 (Z.ltb_lt _ _) Hlt).
    rewrite (proj2 (Z.eqb_neq i (w - 1))) by lia.
    rewrite (proj2 (Z.eqb_neq (i - (w - 1)) 0)) by lia.
    now rewrite !andb_false_r, andb_true_r, xorb_false_r, orb_false_r.
  - rewrite Z.ltb_irrefl, Z.eqb_refl, Z.sub_diag. cbn [Z.eqb].
    rewrite !andb_true_r, andb_false_r. cbn [orb]. reflexivity.
  - rewrite (testbit_above x w i) by lia.
    rewrite (proj2 (Z.eqb_neq i (w - 1))) by lia.
    rewrite (proj2 (Z.eqb_neq (i - (w - 1)) 0)) by lia.
    now rewrite !andb_false_r.
Qed.
End SignBits.

(** ** [product_sign] *)

Lemma as_uint32_t_value (x : list Byte.byte) :
  length x = 4%nat -> as_uint32_t x = Ok (le_value x).
Proof. intros H. unfold as_uint32_t. now rewrite as_same_size. Qed.

Lemma as_uint64_t_value (x : list Byte.byte) :
  length x = 8%nat -> as_uint64_t x = Ok (le_value x).
Proof. intros H. unfold as_uint64_t. now rewrite as_same_size. Qed.

Lemma as_float_value (v : Z) : as_float v = Ok (le_object 4 v).
Proof. unfold as_float. apply as_same_size, length_le_object. Qed.

Lemma as_double_value (v : Z) : as_double v = Ok (le_object 8 v).
Proof. unfold as_double. apply as_same_size, length_le_object. Qed.

Lemma product_sign_float_bits (x y : list Byte.byte) :
  length x = 4%nat -> length y = 4%nat ->
  exists r, product_sign_float x y = Ok r /\ length r = 4%nat
            /\ le_value r = sign_xor 32 (le_value x) (le_value y).
Proof.
  intros Hx Hy. unfold product_sign_float.
  rewrite (as_uint32_t_value x Hx), (as_uint32_t_value y Hy). cbn [mbind outcome_bind].
  rewrite as_float_value. eexists. conjuncts; [reflexivity | apply length_le_object |].
  rewrite le_value_le_object.
  change 0x80000000 with (2 ^ (32 - 1)). fold (sign_xor 32 (le_value x) (le_value y)).
  apply Z.mod_small. apply sign_xor_range; [lia |].
  pose proof (le_value_range x) as Hr. now rewrite Hx in Hr.
Qed.

Lemma product_sign_double_bits (x y : list Byte.byte) :
  length x = 8%nat -> length y = 8%nat ->
  exists r, product_sign_double x y = Ok r /\ length r = 8%nat
            /\ le_value r = sign_xor 64 (le_value x) (le_value y).
Proof.
  intros Hx Hy. unfold product_sign_double.
  rewrite (as_uint64_t_value x Hx), (as_uint64_t_value y Hy). cbn [mbind outcome_bind].
  rewrite as_double_value. eexists. conjuncts; [reflexivity | apply length_le_object |].
  rewrite le_value_le_object.
  change 0x8000000000000000 with (2 ^ (64 - 1)).
  fold (sign_xor 64 (le_value x) (le_value y)).
  apply Z.mod_small. apply sign_xor_range; [lia |].
  pose proof (le_value_range x) as Hr. now rewrite Hx in Hr.
Qed.

(** ** The sign of a floating-point product *)

Lemma shr_1_nonneg (mrs : shr_record) : 0 <= shr_m mrs -> 0 <= shr_m (shr_1 mrs).
Proof.
  destruct mrs as [m r s]. cbn [shr_m].
  destruct m as [| p | p]; intros H; [reflexivity | | lia].
  destruct p; cbn; lia.
Qed.

Lemma iter_pos_preserves {A : Type} (f : A -> A) (Inv : A -> Prop) :
  (forall a, Inv a -> Inv (f a)) ->
  forall p a, Inv a -> Inv (SpecFloat.iter_pos f p a).
Proof.
  intros Hf. induction p as [p IH | p IH |]; intros a Ha; cbn [SpecFloat.iter_pos].
  - apply IH, IH, Hf, Ha.
  - apply IH, IH, Ha.
  - apply Hf, Ha.
Qed.

Lemma shr_nonneg (mrs : shr_record) (e n : Z) :
  0 <= shr_m mrs -> 0 <= shr_m (fst (shr mrs e n)).
Proof.
  intros H. unfold shr. destruct n as [| p | p]; cbn [fst]; try exact H.
  apply (iter_pos_preserves shr_1 (fun r => 0 <= shr_m r)); [apply shr_1_nonneg | exact H].
Qed.

Lemma shr_m_of_loc (m : Z) (l : location) : shr_m (shr_record_of_loc m l) = m.
Proof. destruct l as [| []]; reflexivity. Qed.

Lemma round_nearest_even_nonneg (m : Z) (l : location) :
  0 <= m -> 0 <= round_nearest_even m l.
Proof.
  intros H. destruct l as [| []]; cbn [round_nearest_even]; try lia.
  destruct (Z.even m); lia.
Qed.

Section ProductSign.
Variables (w prec emax : Z).
Hypothesis w_pos : 0 < w.

Lemma shr_fexp_nonneg (m e : Z) (l : location) :
  0 <= m -> 0 <= shr_m (fst (shr_fexp prec emax m e l)).
Proof.
  intros H. unfold shr_fexp. apply shr_nonneg. now rewrite shr_m_of_loc.
Qed.

(** Rounding keeps the sign it is given and never produces a NaN. *)
Lemma sign_of_binary_round_aux (sx : bool) (mx ex : Z) (lx : location) :
  0 <= mx -> sign_of (binary_round_aux prec emax sx mx ex lx) = Some sx.
Proof.
  intros Hmx. unfold binary_round_aux.
  pose proof (shr_fexp_nonneg mx ex lx Hmx) as H1.
  destruct (shr_fexp prec emax mx ex lx) as [mrs' e'] eqn:E1. cbn [fst] in H1.
  pose proof (shr_fexp_nonneg _ e' loc_Exact
                (round_nearest_even_nonneg _ (loc_of_shr_record mrs') H1)) as H2.
  destruct (shr_fexp prec emax _ e' loc_Exact) as [mrs'' e''] eqn:E2. cbn [fst] in H2.
  destruct (shr_m mrs'') as [| p | p]; [reflexivity | | lia].
  destruct (e'' <=? emax - prec); reflexivity.
Qed.

(** The product of two finite numbers carries the exclusive or of their
    signs, also when it rounds to zero or overflows to an infinity. *)
Lemma sign_of_SFmul (x y : spec_float) (sx sy : bool) :
  is_finite x = true -> is_finite y = true ->
  sign_of x = Some sx -> sign_of y = Some sy ->
  sign_of (SFmul prec emax x y) = Some (xorb sx sy).
Proof.
  intros Hfx Hfy Hsx Hsy.
  destruct x as [s1 | s1 | | s1 m1 e1]; try discriminate;
    destruct y as [s2 | s2 | | s2 m2 e2]; try discriminate;
    cbn in Hsx, Hsy; injection Hsx as ->; injection Hsy as ->;
    cbn [SFmul sign_of]; try reflexivity.
  apply sign_of_binary_round_aux. lia.
Qed.

Lemma sign_of_decode (bits : Z) :
  is_finite (decode w prec emax bits) = true ->
  sign_of (decode w prec emax bits) = Some (sign_bit w bits).
Proof.
  unfold decode.
  destruct (exponent_field w prec bits =? 0).
  - destruct (significand_field prec bits); reflexivity.
  - destruct (exponent_field w prec bits =? 2 ^ (w - prec) - 1).
    + destruct (significand_field prec bits =? 0); discriminate.
    + destruct (significand_field prec bits + 2 ^ (prec - 1));
        [discriminate | reflexivity | discriminate].
Qed.

(** On finite operands [copysign(x, x * y)] is the integer expression of
    [product_sign]. *)
Lemma copysign_of_product (x y : Z) :
  0 <= x < 2 ^ w ->
  is_finite (decode w prec emax x) = true ->
  is_finite (decode w prec emax y) = true ->
  copysign w x (fmul w prec emax x y) = Some (sign_xor w x y).
Proof.
  intros Hx Hfx Hfy. unfold copysign, fmul.
  rewrite (sign_of_SFmul _ _ _ _ Hfx Hfy (sign_of_decode x Hfx) (sign_of_decode y Hfy)).
  cbn [mbind option_bind]. f_equal.
  symmetry. apply sign_xor_replaces_sign; assumption.
Qed.
End ProductSign.

(** C2.  For finite [x] and [y], signed zeros included, [product_sign(x, y)]
    has exactly the bits of [copysign(x, x * y)], [x * y] being the IEEE
    product; its sign bit is the exclusive or of the sign bits of [x] and
    [y].  The function itself only reinterprets, masks and xors.  Both
    overloads. *)
Theorem product_sign_is_copysign :
  (forall x y : list Byte.byte,
      length x = 4%nat -> length y = 4%nat ->
      is_finite (decode_float (le_value x)) = true ->
      is_finite (decode_float (le_value y)) = true ->
      exists r, product_sign_float x y = Ok r /\ length r = 4%nat
        /\ copysign_float (le_value x) (fmul_float (le_value x) (le_value y))
           = Some (le_value r)
        /\ sign_bit 32 (le_value r)
           = xorb (sign_bit 32 (le_value x)) (sign_bit 32 (le_value y)))
  /\ (forall x y : list Byte.byte,
      length x = 8%nat -> length y = 8%nat ->
      is_finite (decode_double (le_value x)) = true ->
      is_finite (decode_double (le_value y)) = true ->
      exists r, product_sign_double x y = Ok r /\ length r = 8%nat
        /\ copysign_double (le_value x) (fmul_double (le_value x) (le_value y))
           = Some (le_value r)
        /\ sign_bit 64 (le_value r)
           = xorb (sign_bit 64 (le_value x)) (sign_bit 64 (le_value y))).
Proof.
  split; intros x y Hx Hy Hfx Hfy.
  - destruct (product_sign_float_bits x y Hx Hy) as (r & Hr & Hlen & Hbits).
    exists r. conjuncts; [exact Hr | exact Hlen | |].
    + rewrite Hbits. apply copysign_of_product; [lia | | exact Hfx | exact Hfy].
      pose proof (le_value_range x) as Hrange. now rewrite Hx in Hrange.
    + unfold sign_bit. rewrite Hbits, sign_xor_testbit by lia.
      now rewrite Z.eqb_refl, andb_true_r.
  - destruct (product_sign_double_bits x y Hx Hy) as (r & Hr & Hlen & Hbits).
    exists r. conjuncts; [exact Hr | exact Hlen | |].
    + rewrite Hbits. apply copysign_of_product; [lia | | exact Hfx | exact Hfy].
      pose proof (le_value_range x) as Hrange. now rewrite Hx in Hrange.
    + unfold sign_bit. rewrite Hbits, sign_xor_testbit by lia.
      now rewrite Z.eqb_refl, andb_true_r.
Qed.

(** C10.  Whatever the operands (NaNs and infinities included),
    [product_sign(x, y)] succeeds and its bit pattern is
    [bits(x) xor (bits(y) and sign mask)]; every bit of the result other than
    the sign bit is the corresponding bit of [x].  Both overloads. *)
Theorem product_sign_bit_pattern :
  (forall x y : list Byte.byte,
      length x = 4%nat -> length y = 4%nat ->
      exists r, product_sign_float x y = Ok r /\ length r = 4%nat
        /\ le_value r = Z.lxor (le_value x) (Z.land (le_value y) 0x80000000)
        /\ forall i, i <> 31 -> Z.testbit (le_value r) i = Z.testbit (le_value x) i)
  /\ (forall x y : list Byte.byte,
      length x = 8%nat -> length y = 8%nat ->
      exists r, product_sign_double x y = Ok r /\ length r = 8%nat
        /\ le_value r = Z.lxor (le_value x) (Z.land (le_value y) 0x8000000000000000)
        /\ forall i, i <> 63 -> Z.testbit (le_value r) i = Z.testbit (le_value x) i).
Proof.
  split; intros x y Hx Hy.
  - destruct (product_sign_float_bits x y Hx Hy) as (r & Hr & Hlen & Hbits).
    exists r. conjuncts; [exact Hr | exact Hlen | exact Hbits |].
    intros i Hi. rewrite Hbits. apply sign_xor_other_bits; lia.
  - destruct (product_sign_double_bits x y Hx Hy) as (r & Hr & Hlen & Hbits).
    exists r. conjuncts; [exact Hr | exact Hlen | exact Hbits |].
    intros i Hi. rewrite Hbits. apply sign_xor_other_bits; lia.
Qed.

(** [1.0f] and [-2.0f]; [1.0] and [-0.0]. *)
Lemma product_sign_is_copysign_witness :
  (exists r, product_sign_float (le_object 4 0x3F800000) (le_object 4 0xC0000000) = Ok r
     /\ length r = 4%nat
     /\ copysign_float (le_value (le_object 4 0x3F800000))
          (fmul_float (le_value (le_object 4 0x3F800000)) (le_value (le_object 4 0xC0000000)))
        = Some (le_value r)
     /\ sign_bit 32 (le_value r)
        = xorb (sign_bit 32 (le_value (le_object 4 0x3F800000)))
               (sign_bit 32 (le_value (le_object 4 0xC0000000))))
  /\ (exists r, product_sign_double (le_object 8 0x3FF0000000000000)
                  (le_object 8 0x8000000000000000) = Ok r
     /\ length r = 8%nat
     /\ copysign_double (le_value (le_object 8 0x3FF0000000000000))
          (fmul_double (le_value (le_object 8 0x3FF0000000000000))
             (le_value (le_object 8 0x8000000000000000)))
        = Some (le_value r)
     /\ sign_bit 64 (le_value r)
        = xorb (sign_bit 64 (le_value (le_object 8 0x3FF0000000000000)))
               (sign_bit 64 (le_value (le_object 8 0x8000000000000000)))).
Proof.
  split.
  - apply (proj1 product_sign_is_copysign); reflexivity.
  - apply (proj2 product_sign_is_copysign); reflexivity.
Defined.

(** A quiet NaN combined with [-1.0f]; an infinity combined with [-1.0]. *)
Lemma product_sign_bit_pattern_witness :
  (exists r, product_sign_float (le_object 4 0x7FC00001) (le_object 4 0xBF800000) = Ok r
     /\ length r = 4%nat
     /\ le_value r = Z.lxor (le_value (le_object 4 0x7FC00001))
                            (Z.land (le_value (le_object 4 0xBF800000)) 0x80000000)
     /\ forall i, i <> 31 ->
          Z.testbit (le_value r) i = Z.testbit (le_value (le_object 4 0x7FC00001)) i)
  /\ (exists r, product_sign_double (le_object 8 0x7FF0000000000000)
                  (le_object 8 0xBFF0000000000000) = Ok r
     /\ length r = 8%nat
     /\ le_value r = Z.lxor (le_value (le_object 8 0x7FF0000000000000))
                            (Z.land (le_value (le_object 8 0xBFF0000000000000))
                                    0x8000000000000000)
     /\ forall i, i <> 63 ->
          Z.testbit (le_value r) i
          = Z.testbit (le_value (le_object 8 0x7FF0000000000000)) i).
Proof.
  split.
  - apply (proj1 product_sign_bit_pattern); reflexivity.
  - apply (proj2 product_sign_bit_pattern); reflexivity.
Defined.

(** ** [atomic_max] *)

(** The loop, entered with [z] equal to the contents of the cell (what the
    preceding load or failed exchange left in [z]). *)
Lemma atomic_max_loop_result (fuel : nat) :
  forall (spurious : list bool) (x : atomic) (y : Z),
    (length spurious < fuel)%nat ->
    exists x', atomic_max_loop fuel spurious x (contents x) y = Some x'
               /\ contents x' = Z.max (contents x) y.
Proof.
  induction fuel as [| fuel IH]; intros spurious x y Hfuel; [lia |].
  cbn [atomic_max_loop].
  destruct (Z.ltb_spec (contents x) y) as [Hlt | Hge].
  - unfold compare_exchange_weak. rewrite Z.eqb_refl.
    destruct spurious as [| [|] rest]; cbn [head tail default].
    + eexists. split; [reflexivity |]. cbn [contents]. lia.
    + cbn [length] in Hfuel.
      destruct (IH rest (mk_atomic (contents x) (CasFailed (contents x) y :: history x)) y)
        as (x' & Hx' & Hmax); [lia |].
      exists x'. split; [exact Hx' | exact Hmax].
    + eexists. split; [reflexivity |]. cbn [contents]. lia.
  - exists x. split; [reflexivity | lia].
Qed.

(** C5.  Run sequentially, with any finite list of spurious failures of the
    weak exchange and room for one loop test more than that, [atomic_max]
    returns and leaves in the shared scalar the larger of its previous value
    and the candidate: at least the candidate, at least the previous
    value. *)
Theorem atomic_max_is_max (fuel : nat) (spurious : list bool) (x : atomic) (y : Z) :
  (length spurious < fuel)%nat ->
  exists x', atomic_max fuel spurious x y = Some x'
             /\ contents x' = Z.max (contents x) y
             /\ y <= contents x' /\ contents x <= contents x'.
Proof.
  intros Hfuel. unfold atomic_max, atomic_load.
  destruct (atomic_max_loop_result fuel spurious
              (mk_atomic (contents x) (Load (contents x) :: history x)) y Hfuel)
    as (x' & Hx' & Hmax).
  cbn [contents] in Hx', Hmax.
  exists x'. conjuncts; [exact Hx' | exact Hmax | lia | lia].
Qed.

Lemma atomic_max_is_max_witness :
  exists x', atomic_max 3 [true; true] (mk_atomic 3 []) 7 = Some x'
             /\ contents x' = Z.max (contents (mk_atomic 3 [])) 7
             /\ 7 <= contents x' /\ contents (mk_atomic 3 []) <= contents x'.
Proof. apply (atomic_max_is_max 3 [true; true] (mk_atomic 3 []) 7). cbn. lia. Defined.

(** C8.  When the candidate does not exceed the shared scalar, the call
    performs the initial load and nothing else: no compare-and-swap is
    attempted, nothing is stored, the contents are the ones found. *)
Theorem atomic_max_no_write (fuel : nat) (spurious : list bool) (x : atomic) (y : Z) :
  y <= contents x ->
  atomic_max (S fuel) spurious x y
  = Some (mk_atomic (contents x) (Load (contents x) :: history x)).
Proof.
  intros Hle. unfold atomic_max, atomic_load. cbn [atomic_max_loop contents].
  now rewrite (proj2 (Z.ltb_ge (contents x) y) Hle).
Qed.

Lemma atomic_max_no_write_witness :
  atomic_max 1 [true] (mk_atomic 7 []) 7 = Some (mk_atomic 7 [Load 7]).
Proof. apply (atomic_max_no_write 0 [true] (mk_atomic 7 []) 7). cbn. lia. Defined.

Local Close Scope Z_scope.

(** ** Counted loops and arrays *)

Lemma store_in_range {A : Type} (a : list A) (i : nat) (v : A) :
  i < length a → store a i v = Some (<[i := v]> a).
Proof. intros Hi. unfold store. now rewrite decide_True. Qed.

(** The loop rule: an invariant indexed by the loop counter, established
    on entry and carried by every iteration, holds on exit; the loop does
    not get stuck. *)
Lemma for_range_invariant {St : Type} (body : nat → St → option St)
    (Inv : nat → St → Prop) :
  ∀ count first s,
    Inv first s →
    (∀ i t, first ≤ i < first + count → Inv i t →
            ∃ t', body i t = Some t' ∧ Inv (S i) t') →
    ∃ s', for_range first count body s = Some s' ∧ Inv (first + count) s'.
Proof.
  induction count as [| count IH]; intros first s Hs Hbody; cbn [for_range].
  - exists s. now rewrite Nat.add_0_r.
  - destruct (Hbody first s) as (s1 & Hs1 & Hinv1); [lia | exact Hs |].
    rewrite Hs1. cbn.
    destruct (IH (S first) s1 Hinv1) as (s' & Hs' & Hinv').
    { intros i t Hi. apply Hbody. lia. }
    exists s'. split; [exact Hs' |].
    now replace (first + S count) with (S first + count) by lia.
Qed.

(** ** [shuffle_primitives] *)

Section ShuffleCorrect.
Context {Primitive : Type}.
Variable value_initialized : Primitive.
Variable moved_from : Primitive → Primitive.
Variable prims : list Primitive.
Variable indices : list nat.
Variable count : nat.
Hypothesis prims_length : length prims = count.
Hypothesis indices_bijection : indices ≡ₚ seq 0 count.

Lemma indices_length : length indices = count.
Proof. now rewrite indices_bijection, length_seq. Qed.

Lemma indices_NoDup : NoDup indices.
Proof. rewrite indices_bijection. apply NoDup_seq. Qed.

Lemma indices_in_range (i j : nat) : indices !! i = Some j → j < count.
Proof.
  intros Hj. apply list_elem_of_lookup_2 in Hj.
  rewrite indices_bijection in Hj. apply elem_of_seq in Hj. lia.
Qed.

(** An index is not among the ones read before it. *)
Lemma indices_fresh (i j : nat) : indices !! i = Some j → j ∉ take i indices.
Proof.
  intros Hj Hin. pose proof indices_NoDup as Hnd.
  rewrite <- (take_drop_middle indices i j Hj) in Hnd.
  apply NoDup_app in Hnd as (_ & Hdisj & _).
  apply (Hdisj j Hin). left.
Qed.

(** After [std::move] into the staging array, the staging array holds
    the original primitives. *)
Lemma staging_copy :
  ∃ s, for_range 0 count (move_out moved_from)
         (mk_shuffle prims (make_unique_array value_initialized count)) = Some s
       ∧ length (primitives s) = count ∧ primitives_copy s = prims.
Proof.
  destruct (for_range_invariant (move_out moved_from)
    (λ i s, length (primitives s) = count ∧ length (primitives_copy s) = count
            ∧ (∀ k, k < i → primitives_copy s !! k = prims !! k)
            ∧ (∀ k, i ≤ k → primitives s !! k = prims !! k))
    count 0 (mk_shuffle prims (make_unique_array value_initialized count)))
    as (s & Hs & Hlen & Hlen' & Hcopy & _).
  - cbn. unfold make_unique_array. rewrite length_replicate.
    conjuncts; [exact prims_length | reflexivity | intros k Hk; lia | reflexivity].
  - intros i t Hi (Hlen & Hlen' & Hcopy & Hrest).
    destruct (lookup_lt_is_Some_2 prims i) as [p Hp]; [lia |].
    unfold move_out. rewrite (Hrest i) by lia. rewrite Hp. cbn.
    rewrite store_in_range by lia. cbn.
    eexists. split; [reflexivity |]. cbn.
    rewrite !length_insert. conjuncts; [exact Hlen | exact Hlen' | |].
    + intros k Hk. destruct (decide (k = i)) as [-> | Hne].
      * rewrite list_lookup_insert_eq by lia. now rewrite Hp.
      * rewrite list_lookup_insert_ne by lia. apply Hcopy. lia.
    + intros k Hk. rewrite list_lookup_insert_ne by lia. apply Hrest. lia.
  - exists s. conjuncts; [exact Hs | exact Hlen |].
    apply list_eq. intros k. destruct (decide (k < count)) as [Hk | Hk].
    + apply Hcopy. lia.
    + rewrite !lookup_ge_None_2 by lia. reflexivity.
Qed.

(** The second loop, started with the originals in the staging array. *)
Lemma moving_back (prims0 : list Primitive) :
  length prims0 = count →
  ∃ s, for_range 0 count (move_back moved_from indices) (mk_shuffle prims0 prims) = Some s
       ∧ length (primitives s) = count
       ∧ ∀ i j, indices !! i = Some j → primitives s !! i = prims !! j.
Proof.
  intros Hlen0.
  destruct (for_range_invariant (move_back moved_from indices)
    (λ i s, length (primitives s) = count ∧ length (primitives_copy s) = count
            ∧ (∀ k j, k < i → indices !! k = Some j → primitives s !! k = prims !! j)
            ∧ (∀ j, j ∉ take i indices → primitives_copy s !! j = prims !! j))
    count 0 (mk_shuffle prims0 prims))
    as (s & Hs & Hlen & _ & Hdone & _).
  - cbn. conjuncts; [exact Hlen0 | exact prims_length | intros k j Hk; lia | reflexivity].
  - intros i t Hi (Hlen & Hlen' & Hdone & Hkept).
    destruct (lookup_lt_is_Some_2 indices i) as [j Hj]; [rewrite indices_length; lia |].
    pose proof (indices_in_range i j Hj) as Hjc.
    destruct (lookup_lt_is_Some_2 prims j) as [p Hp]; [lia |].
    unfold move_back. rewrite Hj. cbn.
    rewrite (Hkept j (indices_fresh i j Hj)), Hp. cbn.
    rewrite store_in_range by lia. cbn.
    eexists. split; [reflexivity |]. cbn.
    rewrite !length_insert. conjuncts; [exact Hlen | exact Hlen' | |].
    + intros k j' Hk Hj'. destruct (decide (k = i)) as [-> | Hne].
      * rewrite list_lookup_insert_eq by lia.
        rewrite Hj in Hj'. injection Hj' as <-. now rewrite Hp.
      * rewrite list_lookup_insert_ne by lia. apply Hdone; [lia | exact Hj'].
    + intros j' Hj'. rewrite (take_S_r indices i j Hj) in Hj'.
      rewrite elem_of_app, list_elem_of_singleton in Hj'.
      rewrite list_lookup_insert_ne by (intros ->; tauto).
      apply Hkept. tauto.
  - exists s. conjuncts; [exact Hs | exact Hlen |].
    intros i j Hj. apply (Hdone i j); [| exact Hj].
    apply lookup_lt_Some in Hj. now rewrite indices_length in Hj.
Qed.

(** An array read through a bijection of its indices is a rearrangement
    of the array. *)
Lemma read_through_bijection (r : list Primitive) :
  length r = count →
  (∀ i j, indices !! i = Some j → r !! i = prims !! j) →
  r ≡ₚ prims.
Proof.
  intros Hlen Hread.
  set (at_index := λ j, default value_initialized (prims !! j)).
  assert (r = at_index <$> indices) as ->.
  { apply list_eq. intros i. rewrite list_lookup_fmap.
    destruct (indices !! i) as [j |] eqn:Hj; cbn.
    - rewrite (Hread i j Hj). unfold at_index.
      destruct (lookup_lt_is_Some_2 prims j) as [p Hp];
        [pose proof (indices_in_range i j Hj); lia |].
      now rewrite Hp.
    - apply lookup_ge_None_2. apply lookup_ge_None_1 in Hj.
      rewrite indices_length in Hj. lia. }
  rewrite indices_bijection.
  assert (at_index <$> seq 0 count = prims) as ->; [| reflexivity].
  apply list_eq. intros k. rewrite list_lookup_fmap.
  destruct (decide (k < count)) as [Hk | Hk].
  - rewrite lookup_seq_lt by exact Hk. cbn. unfold at_index.
    destruct (lookup_lt_is_Some_2 prims k) as [p Hp]; [lia |]. now rewrite Hp.
  - rewrite !lookup_ge_None_2; [reflexivity | lia | rewrite length_seq; lia].
Qed.

Lemma shuffle_primitives_result :
  ∃ r, shuffle_primitives value_initialized moved_from prims indices count = Some r
       ∧ length r = count
       ∧ (∀ i j, indices !! i = Some j → r !! i = prims !! j)
       ∧ r ≡ₚ prims.
Proof.
  destruct staging_copy as (s1 & Hs1 & Hlen1 & Hcopy1).
  destruct (moving_back (primitives s1) Hlen1) as (s2 & Hs2 & Hlen2 & Hread).
  unfold shuffle_primitives. rewrite Hs1. cbn.
  destruct s1 as [p1 c1]. cbn in Hcopy1, Hs2. subst c1. rewrite Hs2. cbn.
  exists (primitives s2).
  conjuncts; [reflexivity | exact Hlen2 | exact Hread |].
  now apply read_through_bijection.
Qed.
End ShuffleCorrect.

(** C3.  For an array of [count] primitives and [indices] a bijection over
    [0, count) (a rearrangement of 0, 1, ..., count - 1; [count = 0]
    included), [shuffle_primitives] returns, the array still has [count]
    elements, the element at every index [i] is the one originally at
    [indices[i]], and the array is a rearrangement of the original one:
    nothing is lost, nothing duplicated.  This holds whatever state a move
    leaves its source in. *)
Theorem shuffle_primitives_correct {Primitive : Type}
    (value_initialized : Primitive) (moved_from : Primitive → Primitive)
    (prims : list Primitive) (indices : list nat) (count : nat) :
  length prims = count →
  indices ≡ₚ seq 0 count →
  ∃ r, shuffle_primitives value_initialized moved_from prims indices count = Some r
       ∧ length r = count
       ∧ (∀ i j, indices !! i = Some j → r !! i = prims !! j)
       ∧ r ≡ₚ prims.
Proof. intros Hlen Hperm. now apply shuffle_primitives_result. Qed.

Lemma shuffle_primitives_correct_witness :
  ∃ r, shuffle_primitives 0 (λ _, 0) [10; 11; 12; 13] [2; 0; 3; 1] 4 = Some r
       ∧ length r = 4
       ∧ (∀ i j, [2; 0; 3; 1] !! i = Some j → r !! i = [10; 11; 12; 13] !! j)
       ∧ r ≡ₚ [10; 11; 12; 13].
Proof.
  apply (shuffle_primitives_correct 0 (λ _, 0) [10; 11; 12; 13] [2; 0; 3; 1] 4).
  - reflexivity.
  - cbn. apply (bool_decide_unpack _). vm_compute. reflexivity.
Defined.

(** ** [compute_bounding_boxes_and_centers] *)

Section ExtractionCorrect.
Context {Primitive BoundingBox Vector3 : Type}.
Variable bounding_box : Primitive → BoundingBox.
Variable center : Primitive → Vector3.
Variable empty_box : BoundingBox.
Variable zero_vector : Vector3.
Variable prims : list Primitive.
Variable count : nat.
Hypothesis prims_length : length prims = count.

Abbreviation state := (@extraction_state Primitive BoundingBox Vector3).
Abbreviation run := (exec_all bounding_box center).

Abbreviation well_shaped := (shaped prims count).

Lemma shaped_init : well_shaped (extraction_init empty_box zero_vector prims count).
Proof. unfold shaped. cbn. now rewrite !length_replicate. Qed.

(** One statement writes its own slot and nothing else. *)
Lemma exec_step (st : statement) (s : state) :
  well_shaped s → slot st < count →
  ∃ p s', prims !! slot st = Some p ∧ exec bounding_box center st s = Some s'
    ∧ well_shaped s'
    ∧ match st with
      | StoreBox i =>
          bboxes s' = <[i := bounding_box p]> (bboxes s) ∧ centers s' = centers s
      | StoreCenter i =>
          centers s' = <[i := center p]> (centers s) ∧ bboxes s' = bboxes s
      end.
Proof.
  intros (Hin & Hb & Hc) Hslot.
  destruct (lookup_lt_is_Some_2 prims (slot st)) as [p Hp]; [lia |].
  exists p. destruct st as [i | i]; cbn [slot] in *; cbn [exec];
    rewrite Hin, Hp; cbn; rewrite store_in_range by lia; cbn;
    (eexists; conjuncts; [reflexivity | reflexivity | | reflexivity | reflexivity]);
    unfold shaped; cbn; rewrite ?length_insert; auto.
Qed.

(** Any sequence of statements over valid slots runs to completion; every
    slot named by one of them ends with the value computed from its own
    primitive, every other slot keeps its content. *)
Lemma exec_all_slots (sched : list statement) :
  ∀ s, well_shaped s → (∀ st, st ∈ sched → slot st < count) →
    ∃ s', run sched s = Some s' ∧ well_shaped s'
      ∧ (∀ i, bboxes s' !! i
              = if decide (StoreBox i ∈ sched)
                then bounding_box <$> prims !! i else bboxes s !! i)
      ∧ (∀ i, centers s' !! i
              = if decide (StoreCenter i ∈ sched)
                then center <$> prims !! i else centers s !! i).
Proof.
  induction sched as [| st rest IH]; intros s Hs Hslots.
  - exists s. conjuncts; [reflexivity | exact Hs | |];
      intros i; rewrite decide_False by apply not_elem_of_nil; reflexivity.
  - destruct (exec_step st s Hs) as (p & s1 & Hp & Hs1 & Hshape1 & Hwrite);
      [apply Hslots; left |].
    destruct (IH s1 Hshape1) as (s' & Hs' & Hshape' & Hboxes & Hcenters);
      [intros st' Hst'; apply Hslots; now right |].
    exists s'. cbn [exec_all]. rewrite Hs1. cbn.
    destruct Hs as (_ & Hb & Hc).
    conjuncts; [exact Hs' | exact Hshape' | |]; intros i.
    + rewrite Hboxes. destruct (decide (StoreBox i ∈ rest)) as [Hin | Hout].
      * rewrite decide_True by now right. reflexivity.
      * destruct (decide (st = StoreBox i)) as [-> | Hne].
        -- rewrite decide_True by left. destruct Hwrite as [-> _]. cbn [slot] in *.
           rewrite list_lookup_insert_eq by (apply lookup_lt_Some in Hp; lia).
           now rewrite Hp.
        -- rewrite decide_False by (rewrite elem_of_cons; intros [Heq | Hin]; auto).
           destruct st as [k | k]; destruct Hwrite as [Hw1 Hw2].
           ++ rewrite Hw1. apply list_lookup_insert_ne. congruence.
           ++ now rewrite Hw2.
    + rewrite Hcenters. destruct (decide (StoreCenter i ∈ rest)) as [Hin | Hout].
      * rewrite decide_True by now right. reflexivity.
      * destruct (decide (st = StoreCenter i)) as [-> | Hne].
        -- rewrite decide_True by left. destruct Hwrite as [-> _]. cbn [slot] in *.
           rewrite list_lookup_insert_eq by (apply lookup_lt_Some in Hp; lia).
           now rewrite Hp.
        -- rewrite decide_False by (rewrite elem_of_cons; intros [Heq | Hin]; auto).
           destruct st as [k | k]; destruct Hwrite as [Hw1 Hw2].
           ++ now rewrite Hw2.
           ++ rewrite Hw1. apply list_lookup_insert_ne. congruence.
Qed.

Lemma elem_of_program_order (st : statement) :
  ∀ n first, st ∈ program_order first n ↔ first ≤ slot st < first + n.
Proof.
  induction n as [| n IH]; intros first; cbn [program_order].
  - rewrite elem_of_nil. lia.
  - rewrite !elem_of_cons, IH.
    destruct st as [i | i]; cbn [slot]; split.
    + intros [Heq | [Heq | Hr]]; [injection Heq as -> | discriminate |]; lia.
    + intros Hr. destruct (decide (i = first)) as [-> | Hne]; [now left | right; right; lia].
    + intros [Heq | [Heq | Hr]]; [discriminate | injection Heq as -> |]; lia.
    + intros Hr. destruct (decide (i = first)) as [-> | Hne];
        [right; now left | right; right; lia].
Qed.

(** The sequential loop runs the statements in program order. *)
Lemma for_range_program_order :
  ∀ n first (s : state),
    for_range first n (extraction_body bounding_box center) s
    = run (program_order first n) s.
Proof.
  induction n as [| n IH]; intros first s; cbn [for_range program_order exec_all];
    [reflexivity |].
  unfold extraction_body.
  destruct (exec bounding_box center (StoreBox first) s) as [s1 |];
    cbn [mbind option_bind]; [| reflexivity].
  destruct (exec bounding_box center (StoreCenter first) s1) as [s2 |];
    cbn [mbind option_bind]; [apply IH | reflexivity].
Qed.

(** Under any schedule of the parallel loop the function returns the
    boxes and the centres of the primitives, in the order of the
    primitives, and leaves the input as it was. *)
Lemma exec_all_parallel (sched : list statement) :
  parallel_schedule count sched →
  ∃ s', run sched (extraction_init empty_box zero_vector prims count) = Some s'
        ∧ input s' = prims
        ∧ bboxes s' = bounding_box <$> prims
        ∧ centers s' = center <$> prims.
Proof.
  intros Hsched. unfold parallel_schedule in Hsched.
  assert (∀ st, st ∈ sched ↔ slot st < count) as Hmem.
  { intros st. rewrite Hsched, elem_of_program_order. lia. }
  destruct (exec_all_slots sched _ shaped_init) as (s' & Hs' & Hshape & Hboxes & Hcenters);
    [intros st; apply Hmem |].
  destruct Hshape as (Hin & Hb & Hc).
  exists s'. conjuncts; [exact Hs' | exact Hin | |]; apply list_eq; intros i;
    rewrite list_lookup_fmap.
  - rewrite Hboxes. destruct (decide (i < count)) as [Hi | Hi].
    + rewrite decide_True by (apply Hmem; exact Hi). reflexivity.
    + rewrite decide_False by (rewrite Hmem; exact Hi). cbn.
      rewrite !lookup_ge_None_2 by (rewrite ?length_replicate; lia). reflexivity.
  - rewrite Hcenters. destruct (decide (i < count)) as [Hi | Hi].
    + rewrite decide_True by (apply Hmem; exact Hi). reflexivity.
    + rewrite decide_False by (rewrite Hmem; exact Hi). cbn.
      rewrite !lookup_ge_None_2 by (rewrite ?length_replicate; lia). reflexivity.
Qed.

Lemma extraction_run_result :
  ∃ s', extraction_run bounding_box center empty_box zero_vector prims count = Some s'
        ∧ input s' = prims
        ∧ bboxes s' = bounding_box <$> prims
        ∧ centers s' = center <$> prims.
Proof.
  unfold extraction_run. rewrite for_range_program_order.
  apply exec_all_parallel. unfold parallel_schedule. reflexivity.
Qed.

Lemma compute_bounding_boxes_and_centers_value :
  compute_bounding_boxes_and_centers bounding_box center empty_box zero_vector prims count
  = Some (bounding_box <$> prims, center <$> prims).
Proof.
  unfold compute_bounding_boxes_and_centers.
  destruct extraction_run_result as (s & Hs & _ & Hb & Hc).
  rewrite Hs. cbn [mbind option_bind]. now rewrite Hb, Hc.
Qed.

Lemma compute_bounding_boxes_and_centers_par_value (sched : list statement) :
  parallel_schedule count sched →
  compute_bounding_boxes_and_centers_par bounding_box center empty_box zero_vector
    sched prims count
  = Some (bounding_box <$> prims, center <$> prims).
Proof.
  intros Hsched. unfold compute_bounding_boxes_and_centers_par.
  destruct (exec_all_parallel sched Hsched) as (s & Hs & _ & Hb & Hc).
  rewrite Hs. cbn [mbind option_bind]. now rewrite Hb, Hc.
Qed.
End ExtractionCorrect.

Section ExtractionClaims.
Context {Primitive BoundingBox Vector3 : Type}.
Variable bounding_box : Primitive → BoundingBox.
Variable center : Primitive → Vector3.
Variable empty_box : BoundingBox.
Variable zero_vector : Vector3.

Abbreviation compute :=
  (compute_bounding_boxes_and_centers bounding_box center empty_box zero_vector).
Abbreviation compute_par :=
  (compute_bounding_boxes_and_centers_par bounding_box center empty_box zero_vector).

(** C4.  For an array of [count] primitives the function returns two
    arrays of length [count]; [boxes[i]] is the bounding box of
    [primitives[i]] and [centers[i]] its centre, for every [i]; the input
    array is on return what it was on entry. *)
Theorem compute_bounding_boxes_and_centers_correct
    (prims : list Primitive) (count : nat) :
  length prims = count →
  ∃ boxes cents,
    compute prims count = Some (boxes, cents)
    ∧ length boxes = count ∧ length cents = count
    ∧ (∀ i p, prims !! i = Some p →
              boxes !! i = Some (bounding_box p) ∧ cents !! i = Some (center p))
    ∧ ∃ s, extraction_run bounding_box center empty_box zero_vector prims count = Some s
           ∧ input s = prims.
Proof.
  intros Hlen.
  exists (bounding_box <$> prims), (center <$> prims).
  conjuncts.
  - now apply compute_bounding_boxes_and_centers_value.
  - now rewrite length_fmap.
  - now rewrite length_fmap.
  - intros i p Hp. rewrite !list_lookup_fmap, Hp. split; reflexivity.
  - destruct (extraction_run_result bounding_box center empty_box zero_vector
                prims count Hlen) as (s & Hs & Hin & _).
    exists s. split; [exact Hs | exact Hin].
Qed.

(** C7.  Slot [i] of each output depends on [primitives[i]] only: two
    inputs of the same length that agree at [i] give the same [boxes[i]]
    and the same [centers[i]].  And whatever the order in which the
    workers of the parallel loop execute the statements of its iterations,
    the function returns the arrays the sequential loop returns. *)
Theorem compute_bounding_boxes_and_centers_slotwise :
  (∀ (prims1 prims2 : list Primitive) (count i : nat),
      length prims1 = count → length prims2 = count →
      prims1 !! i = prims2 !! i →
      ∃ boxes1 cents1 boxes2 cents2,
        compute prims1 count = Some (boxes1, cents1)
        ∧ compute prims2 count = Some (boxes2, cents2)
        ∧ boxes1 !! i = boxes2 !! i ∧ cents1 !! i = cents2 !! i)
  ∧ (∀ (prims : list Primitive) (count : nat) (sched : list statement),
      length prims = count → parallel_schedule count sched →
      ∃ out, compute prims count = Some out
             ∧ compute_par sched prims count = Some out).
Proof.
  split.
  - intros prims1 prims2 count i Hlen1 Hlen2 Hagree.
    exists (bounding_box <$> prims1), (center <$> prims1),
           (bounding_box <$> prims2), (center <$> prims2).
    conjuncts.
    + now apply compute_bounding_boxes_and_centers_value.
    + now apply compute_bounding_boxes_and_centers_value.
    + now rewrite !list_lookup_fmap, Hagree.
    + now rewrite !list_lookup_fmap, Hagree.
  - intros prims count sched Hlen Hsched.
    exists (bounding_box <$> prims, center <$> prims). split.
    + now apply compute_bounding_boxes_and_centers_value.
    + now apply compute_bounding_boxes_and_centers_par_value.
Qed.
End ExtractionClaims.

(** Three unit intervals given by their left end: the box is the pair of
    ends, the centre is twice the middle. *)
Lemma compute_bounding_boxes_and_centers_correct_witness :
  ∃ boxes cents,
    compute_bounding_boxes_and_centers (λ a, (a, S a)) (λ a, S (2 * a)) (0, 0) 0 [4; 7; 1] 3
    = Some (boxes, cents)
    ∧ length boxes = 3 ∧ length cents = 3
    ∧ (∀ i p, [4; 7; 1] !! i = Some p →
              boxes !! i = Some (p, S p) ∧ cents !! i = Some (S (2 * p)))
    ∧ ∃ s, extraction_run (λ a, (a, S a)) (λ a, S (2 * a)) (0, 0) 0 [4; 7; 1] 3 = Some s
           ∧ input s = [4; 7; 1].
Proof.
  apply (compute_bounding_boxes_and_centers_correct
           (λ a, (a, S a)) (λ a, S (2 * a)) (0, 0) 0 [4; 7; 1] 3).
  reflexivity.
Defined.

Lemma compute_bounding_boxes_and_centers_slotwise_witness :
  (∃ boxes1 cents1 boxes2 cents2,
      compute_bounding_boxes_and_centers (λ a, (a, S a)) (λ a, S (2 * a)) (0, 0) 0
        [4; 7; 1] 3 = Some (boxes1, cents1)
      ∧ compute_bounding_boxes_and_centers (λ a, (a, S a)) (λ a, S (2 * a)) (0, 0) 0
          [5; 7; 9] 3 = Some (boxes2, cents2)
      ∧ boxes1 !! 1 = boxes2 !! 1 ∧ cents1 !! 1 = cents2 !! 1)
  ∧ (∃ out,
      compute_bounding_boxes_and_centers (λ a, (a, S a)) (λ a, S (2 * a)) (0, 0) 0
        [4; 7; 1] 3 = Some out
      ∧ compute_bounding_boxes_and_centers_par (λ a, (a, S a)) (λ a, S (2 * a)) (0, 0) 0
          [StoreCenter 2; StoreBox 1; StoreBox 0; StoreCenter 0; StoreBox 2; StoreCenter 1]
          [4; 7; 1] 3 = Some out).
Proof.
  pose proof (compute_bounding_boxes_and_centers_slotwise
                (λ a, (a, S a)) (λ a, S (2 * a)) (0, 0) 0) as [Hslot Hpar].
  split.
  - apply (Hslot [4; 7; 1] [5; 7; 9] 3 1); reflexivity.
  - apply (Hpar [4; 7; 1] 3); [reflexivity |].
    unfold parallel_schedule. apply (bool_decide_unpack _). vm_compute. reflexivity.
Defined.

(** * Further properties *)

Local Open Scope Z_scope.

(** ** [RoundedUpLog2] beyond the listed values *)

Lemma int_shl_count_32 (e1 : Z) : int_shl e1 32 = None.
Proof. unfold int_shl, int_bits. now rewrite Z.ltb_irrefl, andb_false_r. Qed.

(** One instantiation step at [I < 31]: the next instantiation is at
    [I + 1], found or not according to the shifted one. *)
Lemma RoundedUpLog2_inst_step (depth : nat) (P I : Z) :
  0 <= I < 31 ->
  RoundedUpLog2_inst (S depth) P I false
  = RoundedUpLog2_inst depth P (I + 1)
      ((if I + 1 <? 31 then 2 ^ (I + 1) else 2 ^ 64 - 2 ^ 31) >=? P).
Proof.
  intros HI. cbn [RoundedUpLog2_inst].
  rewrite size_t_add_small by (change (2 ^ 64) with 18446744073709551616; lia).
  rewrite int_shl_one by lia.
  now rewrite shifted_one_as_size_t by lia.
Qed.

(** At [I = 31] the shift count is 32 and the template argument is not a
    constant expression. *)
Lemma RoundedUpLog2_inst_count_32 (depth : nat) (P : Z) :
  RoundedUpLog2_inst depth P 31 false = Rejected.
Proof.
  destruct depth as [| depth]; [reflexivity |]. cbn [RoundedUpLog2_inst].
  rewrite size_t_add_small by (change (2 ^ 64) with 18446744073709551616; lia).
  change (31 + 1) with 32. now rewrite int_shl_count_32.
Qed.

Lemma pow2_le_30 (I : Z) : 0 <= I + 1 < 31 -> 2 ^ (I + 1) <= 2 ^ 30.
Proof. intros H. apply Z.pow_le_mono_r; lia. Qed.

Lemma RoundedUpLog2_inst_wrapped (P : Z) (depth : nat) :
  forall I,
    0 <= I <= 30 -> 2 ^ 31 < P <= 2 ^ 64 - 2 ^ 31 -> 31 - I <= Z.of_nat depth ->
    RoundedUpLog2_inst depth P I false = Ok 31.
Proof.
  induction depth as [| depth IH]; intros I HI HP Hdepth; [lia |].
  rewrite RoundedUpLog2_inst_step by lia. rewrite Z.geb_leb.
  destruct (Z.ltb_spec (I + 1) 31) as [Hlt | Hge].
  - pose proof (pow2_le_30 I ltac:(lia)) as Hpow.
    change (2 ^ 30) with 1073741824 in Hpow. change (2 ^ 31) with 2147483648 in HP.
    rewrite (proj2 (Z.leb_gt _ _)) by lia.
    apply IH; [lia | | lia]. change (2 ^ 31) with 2147483648. lia.
  - rewrite (proj2 (Z.leb_le _ _)) by lia.
    replace (I + 1) with 31 by lia. apply RoundedUpLog2_inst_found.
Qed.

(** X1.  For [2 <= P <= 2^31], with room for 31 nested instantiations, the
    helper has a value and it is the rounded-up base-2 logarithm of [P]:
    the least [k] with [2^k >= P]. *)
Theorem RoundedUpLog2_is_ceil_log2 (depth : nat) (P : Z) :
  2 <= P <= 2 ^ 31 -> (31 <= depth)%nat ->
  exists k, RoundedUpLog2 depth P = Ok k /\ is_ceil_log2 P k.
Proof. apply RoundedUpLog2_correct. Qed.

Lemma RoundedUpLog2_is_ceil_log2_witness :
  exists k, RoundedUpLog2 31 1000 = Ok k /\ is_ceil_log2 1000 k.
Proof.
  apply (RoundedUpLog2_is_ceil_log2 31 1000); [| lia].
  split; [lia | vm_compute; discriminate].
Defined.

(** X2.  For [2^31 < P <= 2^64 - 2^31] the helper yields 31, whatever the
    logarithm of [P]: [1 << 31] is the most negative [int], which the
    comparison with the [size_t] [P] converts to [2^64 - 2^31]. *)
Theorem RoundedUpLog2_wraps_to_31 (depth : nat) (P : Z) :
  2 ^ 31 < P <= 2 ^ 64 - 2 ^ 31 -> (31 <= depth)%nat ->
  RoundedUpLog2 depth P = Ok 31.
Proof.
  intros HP Hdepth. unfold RoundedUpLog2.
  rewrite (proj2 (Z.eqb_neq P 0)) by (change (2 ^ 31) with 2147483648 in HP; lia).
  apply RoundedUpLog2_inst_wrapped; [lia | exact HP | lia].
Qed.

Lemma RoundedUpLog2_wraps_to_31_witness : RoundedUpLog2 40 (2 ^ 40) = Ok 31.
Proof.
  apply (RoundedUpLog2_wraps_to_31 40 (2 ^ 40));
    [split; [reflexivity | vm_compute; discriminate] | lia].
Defined.

Lemma RoundedUpLog2_inst_unreachable (P : Z) (depth : nat) :
  forall I,
    0 <= I <= 31 -> 2 ^ 64 - 2 ^ 31 < P ->
    RoundedUpLog2_inst depth P I false = Rejected.
Proof.
  induction depth as [| depth IH]; intros I HI HP; [reflexivity |].
  destruct (Z.eq_dec I 31) as [-> | Hne]; [apply RoundedUpLog2_inst_count_32 |].
  rewrite RoundedUpLog2_inst_step by lia. rewrite Z.geb_leb.
  change (2 ^ 64 - 2 ^ 31) with 18446744071562067968 in *.
  destruct (Z.ltb_spec (I + 1) 31) as [Hlt | Hge].
  - pose proof (pow2_le_30 I ltac:(lia)) as Hpow. change (2 ^ 30) with 1073741824 in Hpow.
    rewrite (proj2 (Z.leb_gt _ _)) by lia. apply IH; lia.
  - rewrite (proj2 (Z.leb_gt _ _)) by lia. apply IH; lia.
Qed.

(** X3.  For [P > 2^64 - 2^31] no instantiation depth is enough: no shifted
    one reaches [P], the chain arrives at [1 << 32] and the program is
    rejected. *)
Theorem RoundedUpLog2_rejected_near_max (depth : nat) (P : Z) :
  2 ^ 64 - 2 ^ 31 < P -> RoundedUpLog2 depth P = Rejected.
Proof.
  intros HP. unfold RoundedUpLog2.
  rewrite (proj2 (Z.eqb_neq P 0))
    by (change (2 ^ 64 - 2 ^ 31) with 18446744071562067968 in HP; lia).
  apply RoundedUpLog2_inst_unreachable; [lia | exact HP].
Qed.

Lemma RoundedUpLog2_rejected_near_max_witness : RoundedUpLog2 900 (2 ^ 64 - 1) = Rejected.
Proof. apply (RoundedUpLog2_rejected_near_max 900 (2 ^ 64 - 1)). vm_compute. reflexivity. Defined.

Lemma RoundedUpLog2_inst_bounds (P : Z) (depth : nat) :
  forall I k,
    0 <= I <= 31 -> RoundedUpLog2_inst depth P I false = Ok k -> I < k <= 31.
Proof.
  induction depth as [| depth IH]; intros I k HI Hk; [discriminate |].
  destruct (Z.eq_dec I 31) as [-> | Hne];
    [rewrite RoundedUpLog2_inst_count_32 in Hk; discriminate |].
  rewrite RoundedUpLog2_inst_step in Hk by lia.
  destruct (_ >=? P).
  - rewrite RoundedUpLog2_inst_found in Hk. injection Hk as <-. lia.
  - apply IH in Hk; lia.
Qed.

(** X4.  Whenever the helper has a value for a non-zero [P], the value lies
    between 1 and 31; in particular it is never 0 for a positive [P]. *)
Theorem RoundedUpLog2_value_bounds (depth : nat) (P k : Z) :
  P <> 0 -> RoundedUpLog2 depth P = Ok k -> 1 <= k <= 31.
Proof.
  intros HP Hk. unfold RoundedUpLog2 in Hk.
  rewrite (proj2 (Z.eqb_neq P 0) HP) in Hk.
  apply RoundedUpLog2_inst_bounds in Hk; lia.
Qed.

Lemma RoundedUpLog2_value_bounds_witness :
  RoundedUpLog2 5 5 = Ok 3 /\ 1 <= 3 <= 31.
Proof.
  split; [reflexivity |].
  apply (RoundedUpLog2_value_bounds 5 5 3); [lia | reflexivity].
Defined.

Lemma is_ceil_log2_pow2 (k : Z) : 0 <= k -> is_ceil_log2 (2 ^ k) k.
Proof.
  intros Hk. unfold is_ceil_log2. conjuncts; [exact Hk | lia |].
  intros j Hj. apply Z.pow_lt_mono_r; lia.
Qed.

Lemma is_ceil_log2_pow2_succ (k : Z) : 1 <= k -> is_ceil_log2 (2 ^ k + 1) (k + 1).
Proof.
  intros Hk. unfold is_ceil_log2.
  assert (2 ^ (k + 1) = 2 * 2 ^ k) as Hdouble by (rewrite Z.pow_add_r by lia; lia).
  assert (2 <= 2 ^ k) by (change 2 with (2 ^ 1) at 1; apply Z.pow_le_mono_r; lia).
  conjuncts; [lia | lia |].
  intros j Hj. apply Z.le_lt_trans with (2 ^ k); [apply Z.pow_le_mono_r; lia | lia].
Qed.

(** X5.  On a power of two [2^k] with [1 <= k <= 31] the helper is exact, and
    one past a power of two with [1 <= k <= 30] it moves to [k + 1]. *)
Theorem RoundedUpLog2_powers_of_two (depth : nat) (k : Z) :
  (31 <= depth)%nat ->
  (1 <= k <= 31 -> RoundedUpLog2 depth (2 ^ k) = Ok k)
  /\ (1 <= k <= 30 -> RoundedUpLog2 depth (2 ^ k + 1) = Ok (k + 1)).
Proof.
  intros Hdepth. split; intros Hk.
  - assert (2 <= 2 ^ k <= 2 ^ 31) as Hrange.
    { split; [change 2 with (2 ^ 1) at 1 |]; apply Z.pow_le_mono_r; lia. }
    destruct (RoundedUpLog2_correct depth _ Hrange Hdepth) as (k' & Hk' & Hceil).
    rewrite Hk'. f_equal. apply (is_ceil_log2_unique (2 ^ k)); [exact Hceil |].
    apply is_ceil_log2_pow2. lia.
  - assert (2 <= 2 ^ k + 1 <= 2 ^ 31) as Hrange.
    { assert (2 ^ k <= 2 ^ 30) by (apply Z.pow_le_mono_r; lia).
      assert (0 < 2 ^ k) by (apply Z.pow_pos_nonneg; lia).
      change (2 ^ 30) with 1073741824 in *. change (2 ^ 31) with 2147483648. lia. }
    destruct (RoundedUpLog2_correct depth _ Hrange Hdepth) as (k' & Hk' & Hceil).
    rewrite Hk'. f_equal. apply (is_ceil_log2_unique (2 ^ k + 1)); [exact Hceil |].
    apply is_ceil_log2_pow2_succ. lia.
Qed.

Lemma RoundedUpLog2_powers_of_two_witness :
  RoundedUpLog2 31 (2 ^ 31) = Ok 31 /\ RoundedUpLog2 31 (2 ^ 30 + 1) = Ok (30 + 1).
Proof.
  pose proof (RoundedUpLog2_powers_of_two 31 31 ltac:(lia)) as [H31 _].
  pose proof (RoundedUpLog2_powers_of_two 31 30 ltac:(lia)) as [_ H30].
  split; [apply H31 | apply H30]; lia.
Defined.

(** ** Reinterpretation round trips *)

Lemma le_value_inj (a b : list Byte.byte) :
  length a = length b -> le_value a = le_value b -> a = b.
Proof.
  intros Hlen Hval.
  rewrite <- (le_object_le_value a), <- (le_object_le_value b).
  now rewrite Hlen, Hval.
Qed.

Section RoundTrip.
Variable n : nat.

(** Reading an [n]-byte object as an unsigned integer and writing the integer
    back gives the object; writing an integer below [2^(8n)] and reading it
    gives the integer. *)
Lemma as_integer_round_trip (x : list Byte.byte) :
  length x = n ->
  exists v, (bs ← as_ n x; mret (le_value bs)) = Ok v
            /\ 0 <= v < 2 ^ (8 * Z.of_nat n)
            /\ as_ n (le_object n v) = Ok x.
Proof.
  intros Hx. exists (le_value x). rewrite (as_same_size n x Hx).
  split; [reflexivity |]. split; [rewrite <- Hx; apply le_value_range |].
  rewrite as_same_size by apply length_le_object. f_equal.
  rewrite <- Hx. apply le_object_le_value.
Qed.

Lemma as_object_round_trip (v : Z) :
  0 <= v < 2 ^ (8 * Z.of_nat n) ->
  exists x, as_ n (le_object n v) = Ok x /\ length x = n
            /\ (bs ← as_ n x; mret (le_value bs)) = Ok v.
Proof.
  intros Hv. exists (le_object n v).
  rewrite as_same_size by apply length_le_object.
  conjuncts; [reflexivity | apply length_le_object |].
  cbn [mbind outcome_bind mret outcome_ret]. f_equal.
  rewrite le_value_le_object. now apply Z.mod_small.
Qed.
End RoundTrip.

(** X6.  [as<float>(as<uint32_t>(x))] is [x], byte for byte, for every
    [float] object [x] (NaN payloads included), and
    [as<uint32_t>(as<float>(v))] is [v] for every [uint32_t] value;
    likewise for [double] and [uint64_t]. *)
Theorem as_round_trip :
  (forall x : list Byte.byte, length x = 4%nat ->
     exists v, as_uint32_t x = Ok v /\ 0 <= v < 2 ^ 32 /\ as_float v = Ok x)
  /\ (forall v : Z, 0 <= v < 2 ^ 32 ->
     exists x, as_float v = Ok x /\ length x = 4%nat /\ as_uint32_t x = Ok v)
  /\ (forall x : list Byte.byte, length x = 8%nat ->
     exists v, as_uint64_t x = Ok v /\ 0 <= v < 2 ^ 64 /\ as_double v = Ok x)
  /\ (forall v : Z, 0 <= v < 2 ^ 64 ->
     exists x, as_double v = Ok x /\ length x = 8%nat /\ as_uint64_t x = Ok v).
Proof.
  conjuncts.
  - intros x Hx. exact (as_integer_round_trip 4 x Hx).
  - intros v Hv. exact (as_object_round_trip 4 v Hv).
  - intros x Hx. exact (as_integer_round_trip 8 x Hx).
  - intros v Hv. exact (as_object_round_trip 8 v Hv).
Qed.

Lemma as_round_trip_witness :
  (exists v, as_uint32_t (le_object 4 0x7FC00001) = Ok v /\ 0 <= v < 2 ^ 32
             /\ as_float v = Ok (le_object 4 0x7FC00001))
  /\ (exists x, as_float 0xDEADBEEF = Ok x /\ length x = 4%nat
                /\ as_uint32_t x = Ok 0xDEADBEEF)
  /\ (exists v, as_uint64_t (le_object 8 0x3FF0000000000000) = Ok v /\ 0 <= v < 2 ^ 64
                /\ as_double v = Ok (le_object 8 0x3FF0000000000000))
  /\ (exists x, as_double 0x8000000000000000 = Ok x /\ length x = 8%nat
                /\ as_uint64_t x = Ok 0x8000000000000000).
Proof.
  pose proof as_round_trip as (Hf & Hu & Hd & Hq).
  conjuncts.
  - apply Hf. reflexivity.
  - apply Hu. split; [lia | reflexivity].
  - apply Hd. reflexivity.
  - apply Hq. split; [lia | reflexivity].
Defined.

(** ** [SimilarlySizedIndex] *)



(** ** [product_sign]: what the result is *)

Section SignFlip.
Variables (w prec emax : Z).
Hypothesis w_pos : 0 < w.
Hypothesis prec_range : 1 <= prec <= w.

Lemma land_sign_mask (y : Z) :
  Z.land y (2 ^ (w - 1)) = if Z.testbit y (w - 1) then 2 ^ (w - 1) else 0.
Proof.
  apply Z.bits_inj'. intros i Hi.
  rewrite Z.land_spec, Z.pow2_bits_eqb by lia.
  destruct (Z.eqb_spec (w - 1) i) as [<- | Hne].
  - destruct (Z.testbit y (w - 1)); cbn [andb].
    + rewrite Z.pow2_bits_eqb by lia. now rewrite Z.eqb_refl.
    + now rewrite Z.bits_0.
  - rewrite andb_false_r. destruct (Z.testbit y (w - 1)).
    + rewrite Z.pow2_bits_eqb by lia. now rewrite (proj2 (Z.eqb_neq _ _) Hne).
    + now rewrite Z.bits_0.
Qed.

Lemma sign_xor_sign_clear (x y : Z) :
  Z.testbit y (w - 1) = false -> sign_xor w x y = x.
Proof.
  intros Hy. unfold sign_xor. rewrite land_sign_mask, Hy. apply Z.lxor_0_r.
Qed.

Lemma sign_xor_involutive (x y : Z) : sign_xor w (sign_xor w x y) y = x.
Proof.
  unfold sign_xor. rewrite Z.lxor_assoc, Z.lxor_nilpotent. apply Z.lxor_0_r.
Qed.

Lemma sign_bit_sign_xor (x y : Z) :
  sign_bit w (sign_xor w x y) = xorb (sign_bit w x) (sign_bit w y).
Proof.
  unfold sign_bit. rewrite sign_xor_testbit by exact w_pos.
  now rewrite Z.eqb_refl, andb_true_r.
Qed.

Lemma significand_field_sign_xor (x y : Z) :
  significand_field prec (sign_xor w x y) = significand_field prec x.
Proof.
  unfold significand_field. rewrite <- !Z.land_ones by lia.
  apply Z.bits_inj'. intros i Hi. rewrite !Z.land_spec, Z.testbit_ones by lia.
  destruct (Z.ltb_spec i (prec - 1)) as [Hlt | Hge].
  - rewrite sign_xor_other_bits by lia. reflexivity.
  - now rewrite !andb_false_r.
Qed.

Lemma exponent_field_sign_xor (x y : Z) :
  exponent_field w prec (sign_xor w x y) = exponent_field w prec x.
Proof.
  unfold exponent_field. rewrite <- !Z.shiftr_div_pow2 by lia.
  rewrite <- !Z.land_ones by lia.
  apply Z.bits_inj'. intros i Hi.
  rewrite !Z.land_spec, !Z.shiftr_spec, Z.testbit_ones by lia.
  destruct (Z.ltb_spec i (w - prec)) as [Hlt | Hge].
  - rewrite sign_xor_other_bits by lia. reflexivity.
  - now rewrite !andb_false_r.
Qed.

(** Flipping the sign bit of a bit pattern negates the number it encodes;
    a NaN stays a NaN. *)
Lemma decode_sign_xor (x y : Z) :
  decode w prec emax (sign_xor w x y)
  = if sign_bit w y then SFopp (decode w prec emax x) else decode w prec emax x.
Proof.
  unfold decode.
  rewrite sign_bit_sign_xor, significand_field_sign_xor, exponent_field_sign_xor.
  destruct (sign_bit w y); [rewrite xorb_true_r | now rewrite xorb_false_r].
  destruct (exponent_field w prec x =? 0).
  - destruct (significand_field prec x); reflexivity.
  - destruct (exponent_field w prec x =? 2 ^ (w - prec) - 1).
    + destruct (significand_field prec x =? 0); reflexivity.
    + destruct (significand_field prec x + 2 ^ (prec - 1)); reflexivity.
Qed.
End SignFlip.

(** X8.  When the sign bit of [y] is clear ([y] is [+0], positive, [+inf]
    or a NaN with a clear sign), [product_sign(x, y)] is [x] itself, byte
    for byte.  Both overloads. *)
Theorem product_sign_positive_y :
  (forall x y : list Byte.byte, length x = 4%nat -> length y = 4%nat ->
     sign_bit 32 (le_value y) = false -> product_sign_float x y = Ok x)
  /\ (forall x y : list Byte.byte, length x = 8%nat -> length y = 8%nat ->
     sign_bit 64 (le_value y) = false -> product_sign_double x y = Ok x).
Proof.
  split; intros x y Hx Hy Hsign.
  - destruct (product_sign_float_bits x y Hx Hy) as (r & -> & Hlen & Hbits).
    f_equal. apply le_value_inj; [congruence |].
    rewrite Hbits. apply sign_xor_sign_clear; [lia | exact Hsign].
  - destruct (product_sign_double_bits x y Hx Hy) as (r & -> & Hlen & Hbits).
    f_equal. apply le_value_inj; [congruence |].
    rewrite Hbits. apply sign_xor_sign_clear; [lia | exact Hsign].
Qed.

(** [-3.5f] combined with [+0.0f]; a NaN with payload combined with [2.0]. *)
Lemma product_sign_positive_y_witness :
  product_sign_float (le_object 4 0xC0600000) (le_object 4 0x00000000)
  = Ok (le_object 4 0xC0600000)
  /\ product_sign_double (le_object 8 0xFFF8000000000123) (le_object 8 0x4000000000000000)
     = Ok (le_object 8 0xFFF8000000000123).
Proof.
  split.
  - apply (proj1 product_sign_positive_y); reflexivity.
  - apply (proj2 product_sign_positive_y); reflexivity.
Defined.

(** X9.  Combining twice with the same [y] gives [x] back:
    [product_sign(product_sign(x, y), y)] is [x], byte for byte, for all
    operands.  Both overloads. *)
Theorem product_sign_involutive :
  (forall x y : list Byte.byte, length x = 4%nat -> length y = 4%nat ->
     exists r, product_sign_float x y = Ok r /\ product_sign_float r y = Ok x)
  /\ (forall x y : list Byte.byte, length x = 8%nat -> length y = 8%nat ->
     exists r, product_sign_double x y = Ok r /\ product_sign_double r y = Ok x).
Proof.
  split; intros x y Hx Hy.
  - destruct (product_sign_float_bits x y Hx Hy) as (r & Hr & Hlen & Hbits).
    exists r. split; [exact Hr |].
    destruct (product_sign_float_bits r y Hlen Hy) as (r' & -> & Hlen' & Hbits').
    f_equal. apply le_value_inj; [congruence |].
    rewrite Hbits', Hbits. apply sign_xor_involutive.
  - destruct (product_sign_double_bits x y Hx Hy) as (r & Hr & Hlen & Hbits).
    exists r. split; [exact Hr |].
    destruct (product_sign_double_bits r y Hlen Hy) as (r' & -> & Hlen' & Hbits').
    f_equal. apply le_value_inj; [congruence |].
    rewrite Hbits', Hbits. apply sign_xor_involutive.
Qed.

Lemma product_sign_involutive_witness :
  (exists r, product_sign_float (le_object 4 0x3F800000) (le_object 4 0xFF800000) = Ok r
             /\ product_sign_float r (le_object 4 0xFF800000) = Ok (le_object 4 0x3F800000))
  /\ (exists r, product_sign_double (le_object 8 0x0000000000000001)
                  (le_object 8 0x8000000000000000) = Ok r
                /\ product_sign_double r (le_object 8 0x8000000000000000)
                   = Ok (le_object 8 0x0000000000000001)).
Proof.
  split.
  - apply (proj1 product_sign_involutive); reflexivity.
  - apply (proj2 product_sign_involutive); reflexivity.
Defined.

(** X10.  As a number, [product_sign(x, y)] is [x] when the sign bit of [y]
    is clear and the negation of [x] when it is set: zeros, subnormals,
    normals and infinities change sign only, a NaN stays a NaN.  Both
    overloads. *)
Theorem product_sign_value :
  (forall x y : list Byte.byte, length x = 4%nat -> length y = 4%nat ->
     exists r, product_sign_float x y = Ok r
       /\ decode_float (le_value r)
          = if sign_bit 32 (le_value y)
            then SFopp (decode_float (le_value x)) else decode_float (le_value x))
  /\ (forall x y : list Byte.byte, length x = 8%nat -> length y = 8%nat ->
     exists r, product_sign_double x y = Ok r
       /\ decode_double (le_value r)
          = if sign_bit 64 (le_value y)
            then SFopp (decode_double (le_value x)) else decode_double (le_value x)).
Proof.
  split; intros x y Hx Hy.
  - destruct (product_sign_float_bits x y Hx Hy) as (r & Hr & Hlen & Hbits).
    exists r. split; [exact Hr |]. rewrite Hbits. apply decode_sign_xor; lia.
  - destruct (product_sign_double_bits x y Hx Hy) as (r & Hr & Hlen & Hbits).
    exists r. split; [exact Hr |]. rewrite Hbits. apply decode_sign_xor; lia.
Qed.

(** [+inf] combined with [-1.0f]; [-0.0] combined with [-2.0]. *)
Lemma product_sign_value_witness :
  (exists r, product_sign_float (le_object 4 0x7F800000) (le_object 4 0xBF800000) = Ok r
     /\ decode_float (le_value r)
        = if sign_bit 32 (le_value (le_object 4 0xBF800000))
          then SFopp (decode_float (le_value (le_object 4 0x7F800000)))
          else decode_float (le_value (le_object 4 0x7F800000)))
  /\ (exists r, product_sign_double (le_object 8 0x8000000000000000)
                  (le_object 8 0xC000000000000000) = Ok r
     /\ decode_double (le_value r)
        = if sign_bit 64 (le_value (le_object 8 0xC000000000000000))
          then SFopp (decode_double (le_value (le_object 8 0x8000000000000000)))
          else decode_double (le_value (le_object 8 0x8000000000000000))).
Proof.
  split.
  - apply (proj1 product_sign_value); reflexivity.
  - apply (proj2 product_sign_value); reflexivity.
Defined.

(** ** [atomic_max]: retries, log, successive calls *)

(** X11.  The retry loop tolerates a stale read.  Entered with a [z] that
    the cell held earlier and has since outgrown ([z <= contents]), the loop
    still ends with the larger of the current contents and the candidate:
    the exchange fails, reloads [z], and the loop carries on from the fresh
    value. *)
Theorem atomic_max_loop_stale (fuel : nat) (spurious : list bool) (x : atomic) (z y : Z) :
  z <= contents x ->
  (length spurious + 1 < fuel)%nat ->
  exists x', atomic_max_loop fuel spurious x z y = Some x'
             /\ contents x' = Z.max (contents x) y.
Proof.
  intros Hz Hfuel. destruct fuel as [| fuel]; [lia |].
  destruct (Z.eq_dec z (contents x)) as [-> | Hstale].
  { apply atomic_max_loop_result. lia. }
  cbn [atomic_max_loop].
  destruct (Z.ltb_spec z y) as [Hlt | Hge].
  - unfold compare_exchange_weak.
    rewrite (proj2 (Z.eqb_neq (contents x) z)) by congruence.
    destruct (atomic_max_loop_result fuel (tail spurious)
                (mk_atomic (contents x) (CasFailed z y :: history x)) y)
      as (x' & Hx' & Hmax).
    { destruct spurious; cbn [tail length] in *; lia. }
    exists x'. split; [exact Hx' | exact Hmax].
  - exists x. split; [reflexivity | lia].
Qed.

Lemma atomic_max_loop_stale_witness :
  exists x', atomic_max_loop 3 [true] (mk_atomic 5 []) 2 9 = Some x'
             /\ contents x' = Z.max (contents (mk_atomic 5 [])) 9.
Proof. apply (atomic_max_loop_stale 3 [true] (mk_atomic 5 []) 2 9); cbn; lia. Defined.

Lemma atomic_max_loop_log (n : nat) :
  forall (fuel : nat) (rest : list bool) (x : atomic) (y : Z),
    contents x < y -> (n < fuel)%nat -> default false (head rest) = false ->
    atomic_max_loop fuel (replicate n true ++ rest) x (contents x) y
    = Some (mk_atomic y (CasStored (contents x) y
                           :: replicate n (CasFailed (contents x) y) ++ history x)).
Proof.
  induction n as [| n IH]; intros fuel rest x y Hlt Hfuel Hrest;
    (destruct fuel as [| fuel]; [lia |]); cbn [atomic_max_loop replicate app].
  - rewrite (proj2 (Z.ltb_lt _ _) Hlt). unfold compare_exchange_weak.
    rewrite Z.eqb_refl, Hrest. reflexivity.
  - rewrite (proj2 (Z.ltb_lt _ _) Hlt). unfold compare_exchange_weak.
    rewrite Z.eqb_refl. cbn [head tail default].
    pose proof (IH fuel rest
                  (mk_atomic (contents x) (CasFailed (contents x) y :: history x)) y
                  Hlt ltac:(lia) Hrest) as Hloop.
    cbn [contents history] in Hloop. unfold id. rewrite Hloop. do 3 f_equal.
    change (CasFailed (contents x) y :: history x)
      with ([CasFailed (contents x) y] ++ history x).
    rewrite app_assoc. f_equal.
    change [CasFailed (contents x) y] with (replicate 1 (CasFailed (contents x) y)).
    rewrite <- replicate_add. now replace (n + 1)%nat with (S n) by lia.
Qed.

(** X12.  When the candidate exceeds the shared scalar and the weak exchange
    fails spuriously [n] times before it goes through, the call performs
    the load, [n] failed exchanges and exactly one store, of the candidate
    itself; nothing else is done to the cell. *)
Theorem atomic_max_log (fuel n : nat) (rest : list bool) (x : atomic) (y : Z) :
  contents x < y -> (n < fuel)%nat -> default false (head rest) = false ->
  atomic_max fuel (replicate n true ++ rest) x y
  = Some (mk_atomic y (CasStored (contents x) y
                         :: replicate n (CasFailed (contents x) y)
                         ++ Load (contents x) :: history x)).
Proof.
  intros Hlt Hfuel Hrest. unfold atomic_max, atomic_load.
  exact (atomic_max_loop_log n fuel rest
           (mk_atomic (contents x) (Load (contents x) :: history x)) y Hlt Hfuel Hrest).
Qed.

Lemma atomic_max_log_witness :
  atomic_max 3 (replicate 2 true ++ [false; true]) (mk_atomic 3 []) 7
  = Some (mk_atomic 7 (CasStored 3 7 :: replicate 2 (CasFailed 3 7) ++ [Load 3])).
Proof.
  apply (atomic_max_log 3 2 [false; true] (mk_atomic 3 []) 7); cbn; first [lia | reflexivity].
Defined.

Lemma atomic_max_contents (fuel : nat) (spurious : list bool) (x : atomic) (y : Z) :
  (length spurious < fuel)%nat ->
  exists x', atomic_max fuel spurious x y = Some x'
             /\ contents x' = Z.max (contents x) y.
Proof.
  intros Hfuel. unfold atomic_max, atomic_load.
  exact (atomic_max_loop_result fuel spurious
           (mk_atomic (contents x) (Load (contents x) :: history x)) y Hfuel).
Qed.

(** X13.  Successive calls accumulate the maximum: after any sequence of
    calls the shared scalar holds the largest of its initial value and all
    the candidates, so the order of the calls does not matter for the final
    value. *)
Theorem atomic_max_each_is_maximum (fuel : nat) (calls : list (list bool * Z)) :
  forall x : atomic,
    Forall (fun call => (length (fst call) < fuel)%nat) calls ->
    exists x', atomic_max_each fuel x calls = Some x'
               /\ contents x' = foldl Z.max (contents x) (snd <$> calls)
               /\ forall calls', calls' ≡ₚ calls ->
                    exists x'', atomic_max_each fuel x calls' = Some x''
                                /\ contents x'' = contents x'.
Proof.
  assert (forall calls0 (x0 : atomic),
             Forall (fun call => (length (fst call) < fuel)%nat) calls0 ->
             exists x', atomic_max_each fuel x0 calls0 = Some x'
                        /\ contents x' = foldl Z.max (contents x0) (snd <$> calls0))
    as Hrun.
  { induction calls0 as [| [spurious y] rest IH]; intros x0 Hall.
    - exists x0. split; reflexivity.
    - apply Forall_cons in Hall as [Hhead Hrest]. cbn [fst] in Hhead.
      destruct (atomic_max_contents fuel spurious x0 y Hhead) as (x1 & Hx1 & Hc1).
      destruct (IH x1 Hrest) as (x' & Hx' & Hc').
      exists x'. cbn [atomic_max_each]. rewrite Hx1. cbn [mbind option_bind].
      split; [exact Hx' |]. rewrite Hc', Hc1. reflexivity. }
  assert (forall (l l' : list Z), l ≡ₚ l' ->
             forall a, foldl Z.max a l = foldl Z.max a l') as Hperm.
  { induction 1 as [| b l l' _ IH | b c l | l1 l2 l3 _ IH1 _ IH2]; intros a; cbn.
    - reflexivity.
    - apply IH.
    - f_equal. lia.
    - now rewrite IH1. }
  intros x Hall. destruct (Hrun calls x Hall) as (x' & Hx' & Hc').
  exists x'. conjuncts; [exact Hx' | exact Hc' |].
  intros calls' Hcalls.
  destruct (Hrun calls' x) as (x'' & Hx'' & Hc''); [now rewrite Hcalls |].
  exists x''. split; [exact Hx'' |].
  rewrite Hc'', Hc'. apply Hperm. now rewrite Hcalls.
Qed.

Lemma atomic_max_each_is_maximum_witness :
  exists x', atomic_max_each 4 (mk_atomic 3 []) [([true], 9); ([], 5); ([true; true], 12)]
             = Some x'
             /\ contents x' = foldl Z.max (contents (mk_atomic 3 []))
                                (snd <$> [([true], 9); ([], 5); ([true; true], 12)])
             /\ forall calls', calls' ≡ₚ [([true], 9); ([], 5); ([true; true], 12)] ->
                  exists x'', atomic_max_each 4 (mk_atomic 3 []) calls' = Some x''
                              /\ contents x'' = contents x'.
Proof.
  apply (atomic_max_each_is_maximum 4 [([true], 9); ([], 5); ([true; true], 12)]
           (mk_atomic 3 [])).
  repeat constructor; cbn; lia.
Defined.

(** X14.  Once a candidate has been applied, a call with the same or a
    smaller candidate writes nothing: its only operation on the cell is the
    load. *)
Theorem atomic_max_then_smaller (fuel fuel' : nat) (spurious spurious' : list bool)
    (x : atomic) (y y' : Z) :
  (length spurious < fuel)%nat -> y' <= y ->
  exists x', atomic_max fuel spurious x y = Some x'
             /\ atomic_max (S fuel') spurious' x' y'
                = Some (mk_atomic (contents x') (Load (contents x') :: history x')).
Proof.
  intros Hfuel Hle.
  destruct (atomic_max_contents fuel spurious x y Hfuel) as (x' & Hx' & Hc).
  exists x'. split; [exact Hx' |].
  unfold atomic_max, atomic_load. cbn [atomic_max_loop contents].
  now rewrite (proj2 (Z.ltb_ge (contents x') y')) by lia.
Qed.

Lemma atomic_max_then_smaller_witness :
  exists x', atomic_max 2 [true] (mk_atomic 3 []) 7 = Some x'
             /\ atomic_max 1 [true] x' 7
                = Some (mk_atomic (contents x') (Load (contents x') :: history x')).
Proof.
  apply (atomic_max_then_smaller 2 0 [true] [true] (mk_atomic 3 []) 7 7); cbn; lia.
Defined.

Local Close Scope Z_scope.

(** ** Loops that get stuck *)

(** A loop whose iterations, under an invariant, either fail or carry the
    invariant on, and one of whose iterations fails whenever the invariant
    holds, fails. *)
Lemma for_range_stuck {St : Type} (body : nat → St → option St)
    (Inv : nat → St → Prop) :
  ∀ count first s,
    Inv first s →
    (∀ k t, first ≤ k < first + count → Inv k t →
            body k t = None ∨ ∃ t', body k t = Some t' ∧ Inv (S k) t') →
    (∃ i, first ≤ i < first + count ∧ ∀ t, Inv i t → body i t = None) →
    for_range first count body s = None.
Proof.
  induction count as [| count IH]; intros first s Hs Hstep (i & Hi & Hfail); [lia |].
  cbn [for_range].
  destruct (Hstep first s ltac:(lia) Hs) as [-> | (t' & Hbody & Hinv)]; [reflexivity |].
  rewrite Hbody. cbn [mbind option_bind].
  apply IH; [exact Hinv | intros k t Hk; apply Hstep; lia |].
  exists i. split; [| exact Hfail].
  destruct (decide (i = first)) as [-> | Hne]; [| lia].
  rewrite (Hfail s Hs) in Hbody. discriminate.
Qed.

Lemma occurrences_snoc (j k : nat) (l : list nat) :
  occurrences j (l ++ [k]) = occurrences j l + (if decide (k = j) then 1 else 0).
Proof. induction l as [| a l IH]; cbn [occurrences app]; [| rewrite IH]; lia. Qed.

(** ** [shuffle_primitives] on arbitrary index arrays *)

Section ShuffleGeneral.
Context {Primitive : Type}.
Variable value_initialized : Primitive.
Variable moved_from : Primitive → Primitive.
Variable prims : list Primitive.
Variable indices : list nat.
Variable count : nat.

(** What [i] reads of the staging array: the original primitive, moved from
    as many times as its index was used before. *)
Abbreviation read_at i j :=
  (Nat.iter (occurrences j%nat (take i indices)) moved_from <$> prims !! j%nat).

(** Invariant of the staging loop. *)
Abbreviation staged i s :=
  (length (primitives s) = length prims ∧ length (primitives_copy s) = count
   ∧ (∀ k, k < i → primitives_copy s !! k = prims !! k)
   ∧ (∀ k, i ≤ k → primitives s !! k = prims !! k)).

Lemma move_out_step (i : nat) (s : shuffle_state) :
  staged i s → i < count →
  (length prims ≤ i ∧ move_out moved_from i s = None)
  ∨ (i < length prims ∧ ∃ s', move_out moved_from i s = Some s' ∧ staged (S i) s').
Proof.
  intros (Hlen & Hlen' & Hcopy & Hrest) Hi. unfold move_out.
  rewrite (Hrest i) by lia.
  destruct (prims !! i) as [p |] eqn:Hp; cbn.
  - right. pose proof (lookup_lt_Some _ _ _ Hp) as Hip. split; [exact Hip |].
    rewrite store_in_range by lia. cbn.
    eexists. split; [reflexivity |]. cbn. rewrite !length_insert.
    conjuncts; [exact Hlen | exact Hlen' | |].
    + intros k Hk. destruct (decide (k = i)) as [-> | Hne].
      * rewrite list_lookup_insert_eq by lia. now rewrite Hp.
      * rewrite list_lookup_insert_ne by lia. apply Hcopy. lia.
    + intros k Hk. rewrite list_lookup_insert_ne by lia. apply Hrest. lia.
  - left. split; [now apply lookup_ge_None_1 | reflexivity].
Qed.

Lemma staged_init :
  staged 0 (mk_shuffle prims (make_unique_array value_initialized count)).
Proof.
  cbn. unfold make_unique_array. rewrite length_replicate.
  conjuncts; [reflexivity | reflexivity | intros k Hk; lia | reflexivity].
Qed.

Lemma staging_general :
  count ≤ length prims →
  ∃ s, for_range 0 count (move_out moved_from)
         (mk_shuffle prims (make_unique_array value_initialized count)) = Some s
       ∧ length (primitives s) = length prims
       ∧ primitives_copy s = take count prims
       ∧ (∀ k, count ≤ k → primitives s !! k = prims !! k).
Proof.
  intros Hcount.
  destruct (for_range_invariant (move_out moved_from) (λ i s, staged i s)
              count 0 _ staged_init) as (s & Hs & Hlen & Hlen' & Hcopy & Hrest).
  - intros i t Hi Ht.
    destruct (move_out_step i t Ht) as [[Hout _] | [_ Hok]]; [lia | lia | exact Hok].
  - exists s. conjuncts; [exact Hs | exact Hlen | | exact Hrest].
    apply list_eq. intros k. destruct (decide (k < count)) as [Hk | Hk].
    + rewrite lookup_take_lt by exact Hk. apply Hcopy. lia.
    + rewrite lookup_take_ge by lia. apply lookup_ge_None_2. lia.
Qed.

Lemma staging_out_of_bounds :
  length prims < count →
  for_range 0 count (move_out moved_from)
    (mk_shuffle prims (make_unique_array value_initialized count)) = None.
Proof.
  intros Hcount.
  apply (for_range_stuck (move_out moved_from) (λ i s, staged i s)
           count 0 _ staged_init).
  - intros k t Hk Ht.
    destruct (move_out_step k t Ht) as [[_ Hnone] | [_ Hok]]; [lia | now left | now right].
  - exists (length prims). split; [lia |]. intros t Ht.
    destruct (move_out_step (length prims) t Ht) as [[_ Hnone] | [Hlt _]];
      [lia | exact Hnone | lia].
Qed.

(** Invariant of the second loop, started with [prims0] in the array. *)
Abbreviation gathered prims0 i s :=
  (length (primitives s) = length prims0%list ∧ length (primitives_copy s) = count
   ∧ (∀ k j, k < i → indices !! k = Some j → primitives s !! k = read_at k j)
   ∧ (∀ j, j < count → primitives_copy s !! j = read_at i j)
   ∧ (∀ k, i ≤ k → primitives s !! k = prims0%list !! k)).

Lemma move_back_step (prims0 : list Primitive) (i : nat) (s : shuffle_state) :
  count ≤ length prims → length prims0 = length prims →
  gathered prims0 i s → i < count →
  ((indices !! i = None ∨ ∃ j, indices !! i = Some j ∧ count ≤ j)
   ∧ move_back moved_from indices i s = None)
  ∨ ((∃ j, indices !! i = Some j ∧ j < count)
     ∧ ∃ s', move_back moved_from indices i s = Some s' ∧ gathered prims0 (S i) s').
Proof.
  intros Hcount Hlen0 (Hlen & Hlen' & Hdone & Hcopy & Hrest) Hi. unfold move_back.
  destruct (indices !! i) as [j |] eqn:Hj; cbn; [| left; split; [now left | reflexivity]].
  destruct (decide (j < count)) as [Hjc | Hjc].
  - right. split; [now exists j |].
    destruct (lookup_lt_is_Some_2 prims j) as [p Hp]; [lia |].
    rewrite (Hcopy j Hjc), Hp. cbn.
    rewrite store_in_range by lia. cbn.
    eexists. split; [reflexivity |]. cbn. rewrite !length_insert.
    conjuncts; [exact Hlen | exact Hlen' | | |].
    + intros k j' Hk Hj'. destruct (decide (k = i)) as [-> | Hne].
      * rewrite list_lookup_insert_eq by lia.
        rewrite Hj in Hj'. injection Hj' as <-. now rewrite Hp.
      * rewrite list_lookup_insert_ne by lia. apply Hdone; [lia | exact Hj'].
    + intros j' Hj'. rewrite (take_S_r indices i j Hj), occurrences_snoc.
      destruct (decide (j = j')) as [<- | Hne].
      * rewrite list_lookup_insert_eq by lia. rewrite Hp. cbn.
        now rewrite Nat.add_1_r.
      * rewrite list_lookup_insert_ne by exact Hne.
        rewrite Nat.add_0_r. now apply Hcopy.
    + intros k Hk. rewrite list_lookup_insert_ne by lia. apply Hrest. lia.
  - left. split; [right; exists j; split; [reflexivity | lia] |].
    rewrite (lookup_ge_None_2 (primitives_copy s) j) by lia. reflexivity.
Qed.

Lemma gathered_init (prims0 : list Primitive) :
  count ≤ length prims →
  gathered prims0 0 (mk_shuffle prims0 (take count prims)).
Proof.
  intros Hcount. cbn.
  conjuncts; [reflexivity | | intros k j Hk; lia | | reflexivity].
  - rewrite length_take. lia.
  - intros j Hj. rewrite lookup_take_lt by exact Hj. now destruct (prims !! j).
Qed.

Lemma gathering_general (prims0 : list Primitive) :
  count ≤ length prims → length prims0 = length prims →
  (∀ i, i < count → ∃ j, indices !! i = Some j ∧ j < count) →
  ∃ s, for_range 0 count (move_back moved_from indices)
         (mk_shuffle prims0 (take count prims)) = Some s
       ∧ length (primitives s) = length prims
       ∧ (∀ i j, i < count → indices !! i = Some j → primitives s !! i = read_at i j)
       ∧ (∀ i, count ≤ i → primitives s !! i = prims0 !! i).
Proof.
  intros Hcount Hlen0 Hin.
  destruct (for_range_invariant (move_back moved_from indices)
              (λ i s, gathered prims0 i s) count 0 _ (gathered_init prims0 Hcount))
    as (s & Hs & Hlen & _ & Hdone & _ & Hrest).
  - intros i t Hi Ht.
    destruct (move_back_step prims0 i t Hcount Hlen0 Ht) as [[Hbad _] | [_ Hok]];
      [lia | | exact Hok].
    destruct (Hin i) as (j & Hj & Hjc); [lia |].
    destruct Hbad as [Hnone | (j' & Hj' & Hjc')]; [congruence |].
    rewrite Hj in Hj'. injection Hj' as <-. lia.
  - exists s. conjuncts; [exact Hs | congruence | exact Hdone | exact Hrest].
Qed.

Lemma gathering_out_of_range (prims0 : list Primitive) :
  count ≤ length prims → length prims0 = length prims →
  (∃ i, i < count ∧ (indices !! i = None ∨ ∃ j, indices !! i = Some j ∧ count ≤ j)) →
  for_range 0 count (move_back moved_from indices)
    (mk_shuffle prims0 (take count prims)) = None.
Proof.
  intros Hcount Hlen0 (i & Hi & Hbad).
  apply (for_range_stuck (move_back moved_from indices)
           (λ i s, gathered prims0 i s) count 0 _ (gathered_init prims0 Hcount)).
  - intros k t Hk Ht.
    destruct (move_back_step prims0 k t Hcount Hlen0 Ht) as [[_ Hnone] | [_ Hok]];
      [lia | now left | now right].
  - exists i. split; [lia |]. intros t Ht.
    destruct (move_back_step prims0 i t Hcount Hlen0 Ht Hi)
      as [[_ Hnone] | [(j & Hj & Hjc) _]]; [exact Hnone |].
    destruct Hbad as [Hnone | (j' & Hj' & Hjc')]; [congruence |].
    rewrite Hj in Hj'. injection Hj' as <-. lia.
Qed.

Lemma shuffle_primitives_general :
  count ≤ length prims →
  (∀ i, i < count → ∃ j, indices !! i = Some j ∧ j < count) →
  ∃ r, shuffle_primitives value_initialized moved_from prims indices count = Some r
       ∧ length r = length prims
       ∧ (∀ i j, i < count → indices !! i = Some j → r !! i = read_at i j)
       ∧ (∀ i, count ≤ i → r !! i = prims !! i).
Proof.
  intros Hcount Hin.
  destruct (staging_general Hcount) as (s1 & Hs1 & Hlen1 & Hcopy1 & Hrest1).
  destruct (gathering_general (primitives s1) Hcount Hlen1 Hin)
    as (s2 & Hs2 & Hlen2 & Hread & Hrest2).
  unfold shuffle_primitives. rewrite Hs1. cbn [mbind option_bind].
  destruct s1 as [p1 c1]. cbn [primitives primitives_copy] in *. subst c1.
  rewrite Hs2. cbn [mbind option_bind].
  exists (primitives s2). conjuncts; [reflexivity | exact Hlen2 | exact Hread |].
  intros i Hi. rewrite Hrest2 by exact Hi. now apply Hrest1.
Qed.

Lemma shuffle_primitives_undefined :
  length prims < count
  ∨ (∃ i, i < count ∧ (indices !! i = None ∨ ∃ j, indices !! i = Some j ∧ count ≤ j)) →
  shuffle_primitives value_initialized moved_from prims indices count = None.
Proof.
  intros Hbad. unfold shuffle_primitives.
  destruct (decide (length prims < count)) as [Hshort | Hcount].
  - now rewrite (staging_out_of_bounds Hshort).
  - destruct Hbad as [Hshort | Hbad]; [lia |].
    assert (count ≤ length prims) as Hle by lia.
    destruct (staging_general Hle) as (s1 & Hs1 & Hlen1 & Hcopy1 & _).
    rewrite Hs1. cbn [mbind option_bind].
    destruct s1 as [p1 c1]. cbn [primitives primitives_copy] in *. subst c1.
    now rewrite (gathering_out_of_range p1 Hle Hlen1 Hbad).
Qed.
End ShuffleGeneral.

(** X15.  For any index array whose first [count] entries lie in
    [0, count), bijective or not, on an array of at least [count]
    primitives: the function returns; slot [i < count] receives the
    primitive originally at [indices[i]], in the state left by as many moves
    as that index was used at earlier positions; the slots from [count] on
    keep their content and the array keeps its length. *)
Theorem shuffle_primitives_gathers {Primitive : Type}
    (value_initialized : Primitive) (moved_from : Primitive → Primitive)
    (prims : list Primitive) (indices : list nat) (count : nat) :
  count ≤ length prims →
  (∀ i, i < count → ∃ j, indices !! i = Some j ∧ j < count) →
  ∃ r, shuffle_primitives value_initialized moved_from prims indices count = Some r
       ∧ length r = length prims
       ∧ (∀ i j, i < count → indices !! i = Some j →
            r !! i = Nat.iter (occurrences j (take i indices)) moved_from <$> prims !! j)
       ∧ (∀ i, count ≤ i → r !! i = prims !! i).
Proof. apply shuffle_primitives_general. Qed.

Lemma indices_2_2_0_in_range :
  ∀ i, i < 3 → ∃ j, [2; 2; 0] !! i = Some j ∧ j < 3.
Proof.
  intros i Hi. destruct i as [| [| [| i]]]; [| | | lia];
    eexists; (split; [reflexivity | lia]).
Defined.

Lemma shuffle_primitives_gathers_witness :
  ∃ r, shuffle_primitives 0 (λ p, p + 100) [10; 11; 12; 13; 14] [2; 2; 0] 3 = Some r
       ∧ length r = length [10; 11; 12; 13; 14]
       ∧ (∀ i j, i < 3 → [2; 2; 0] !! i = Some j →
            r !! i = Nat.iter (occurrences j (take i [2; 2; 0])) (λ p, p + 100)
                       <$> [10; 11; 12; 13; 14] !! j)
       ∧ (∀ i, 3 ≤ i → r !! i = [10; 11; 12; 13; 14] !! i).
Proof.
  apply (shuffle_primitives_gathers 0 (λ p, p + 100) [10; 11; 12; 13; 14] [2; 2; 0] 3);
    [cbn; lia | exact indices_2_2_0_in_range].
Defined.

Lemma iter_id {A : Type} (n : nat) (a : A) : Nat.iter n (λ p, p) a = a.
Proof. induction n as [| n IH]; cbn; [reflexivity | exact IH]. Qed.

(** X16.  For a primitive type whose move leaves the source intact (a
    trivially copyable one), the function is a plain gather for any in-range
    index array: slot [i] receives the primitive originally at
    [indices[i]], so an index used twice duplicates its primitive and an
    index not used loses its primitive. *)
Theorem shuffle_primitives_trivially_copyable {Primitive : Type}
    (value_initialized : Primitive)
    (prims : list Primitive) (indices : list nat) (count : nat) :
  count ≤ length prims →
  (∀ i, i < count → ∃ j, indices !! i = Some j ∧ j < count) →
  ∃ r, shuffle_primitives value_initialized (λ p, p) prims indices count = Some r
       ∧ length r = length prims
       ∧ (∀ i j, i < count → indices !! i = Some j → r !! i = prims !! j)
       ∧ (∀ i, count ≤ i → r !! i = prims !! i).
Proof.
  intros Hcount Hin.
  destruct (shuffle_primitives_general value_initialized (λ p, p) prims indices count
              Hcount Hin) as (r & Hr & Hlen & Hread & Hrest).
  exists r. conjuncts; [exact Hr | exact Hlen | | exact Hrest].
  intros i j Hi Hj. rewrite (Hread i j Hi Hj).
  destruct (prims !! j) as [p |]; cbn; [| reflexivity]. now rewrite iter_id.
Qed.

Lemma shuffle_primitives_trivially_copyable_witness :
  ∃ r, shuffle_primitives 0 (λ p, p) [10; 11; 12; 13; 14] [2; 2; 0] 3 = Some r
       ∧ length r = length [10; 11; 12; 13; 14]
       ∧ (∀ i j, i < 3 → [2; 2; 0] !! i = Some j → r !! i = [10; 11; 12; 13; 14] !! j)
       ∧ (∀ i, 3 ≤ i → r !! i = [10; 11; 12; 13; 14] !! i).
Proof.
  apply (shuffle_primitives_trivially_copyable 0 [10; 11; 12; 13; 14] [2; 2; 0] 3);
    [cbn; lia | exact indices_2_2_0_in_range].
Defined.

(** X17.  The function checks nothing: with fewer than [count] primitives
    in the array, with fewer than [count] indices, or with one of the first
    [count] indices at or beyond [count], the call reads outside an array and
    is undefined. *)
Theorem shuffle_primitives_out_of_range {Primitive : Type}
    (value_initialized : Primitive) (moved_from : Primitive → Primitive)
    (prims : list Primitive) (indices : list nat) (count : nat) :
  length prims < count
  ∨ (∃ i, i < count ∧ (indices !! i = None ∨ ∃ j, indices !! i = Some j ∧ count ≤ j)) →
  shuffle_primitives value_initialized moved_from prims indices count = None.
Proof. apply shuffle_primitives_undefined. Qed.

Lemma shuffle_primitives_out_of_range_witness :
  shuffle_primitives 0 (λ p, p) [10; 11; 12] [2; 3; 0] 3 = None.
Proof.
  apply (shuffle_primitives_out_of_range 0 (λ p, p) [10; 11; 12] [2; 3; 0] 3).
  right. exists 1. split; [lia |]. right. exists 3. split; [reflexivity | lia].
Defined.

(** ** Identity, composition and inverse of shuffles *)

Section ShuffleAlgebra.
Context {Primitive : Type}.
Variable value_initialized : Primitive.
Variable moved_from : Primitive → Primitive.

Abbreviation shuffle := (shuffle_primitives value_initialized moved_from).

Lemma shuffle_identity (prims : list Primitive) :
  shuffle prims (seq 0 (length prims)) (length prims) = Some prims.
Proof.
  destruct (shuffle_primitives_result value_initialized moved_from prims
              (seq 0 (length prims)) (length prims) eq_refl (reflexivity _))
    as (r & Hr & Hlen & Hread & _).
  rewrite Hr. f_equal. apply list_eq. intros i.
  destruct (decide (i < length prims)) as [Hi | Hi].
  - apply (Hread i i). now rewrite lookup_seq_lt.
  - rewrite !lookup_ge_None_2 by lia. reflexivity.
Qed.

Lemma compose_indices_bijection (p q : list nat) (count : nat) :
  p ≡ₚ seq 0 count → q ≡ₚ seq 0 count → compose_indices p q ≡ₚ seq 0 count.
Proof.
  intros Hp Hq. unfold compose_indices. rewrite Hq.
  assert (length p = count) as Hlen by now rewrite Hp, length_seq.
  assert ((λ j, default 0 (p !! j)) <$> seq 0 count = p) as ->; [| exact Hp].
  apply list_eq. intros i. rewrite list_lookup_fmap.
  destruct (decide (i < count)) as [Hi | Hi].
  - rewrite lookup_seq_lt by exact Hi. cbn.
    destruct (lookup_lt_is_Some_2 p i) as [k Hk]; [lia |]. now rewrite Hk.
  - rewrite !lookup_ge_None_2; [reflexivity | lia | rewrite length_seq; lia].
Qed.

Lemma shuffle_compose (prims : list Primitive) (p q : list nat) (count : nat) :
  length prims = count → p ≡ₚ seq 0 count → q ≡ₚ seq 0 count →
  ∃ r r', shuffle prims p count = Some r ∧ shuffle r q count = Some r'
          ∧ shuffle prims (compose_indices p q) count = Some r'.
Proof.
  intros Hlen Hp Hq.
  destruct (shuffle_primitives_result value_initialized moved_from prims p count Hlen Hp)
    as (r & Hr & Hlenr & Hreadr & _).
  destruct (shuffle_primitives_result value_initialized moved_from r q count Hlenr Hq)
    as (r' & Hr' & Hlenr' & Hreadr' & _).
  destruct (shuffle_primitives_result value_initialized moved_from prims
              (compose_indices p q) count Hlen (compose_indices_bijection p q count Hp Hq))
    as (c & Hc & Hlenc & Hreadc & _).
  exists r, r'. conjuncts; [exact Hr | exact Hr' |].
  rewrite Hc. f_equal. apply list_eq. intros i.
  destruct (decide (i < count)) as [Hi | Hi].
  - assert (length q = count) as Hlq by now rewrite Hq, length_seq.
    assert (length p = count) as Hlp by now rewrite Hp, length_seq.
    destruct (lookup_lt_is_Some_2 q i) as [j Hj]; [lia |].
    assert (j < count) as Hjc.
    { apply list_elem_of_lookup_2 in Hj. rewrite Hq in Hj.
      apply elem_of_seq in Hj. lia. }
    destruct (lookup_lt_is_Some_2 p j) as [k Hk]; [lia |].
    rewrite (Hreadr' i j Hj), (Hreadr j k Hk).
    apply (Hreadc i k). unfold compose_indices.
    rewrite list_lookup_fmap, Hj. cbn. now rewrite Hk.
  - rewrite !lookup_ge_None_2 by lia. reflexivity.
Qed.
End ShuffleAlgebra.

(** X18.  Shuffling with the identity permutation [0, 1, ..., count - 1]
    leaves the array as it is, whatever a move does to its source. *)
Theorem shuffle_primitives_identity {Primitive : Type}
    (value_initialized : Primitive) (moved_from : Primitive → Primitive)
    (prims : list Primitive) :
  shuffle_primitives value_initialized moved_from prims
    (seq 0 (length prims)) (length prims) = Some prims.
Proof. apply shuffle_identity. Qed.

(** X19.  Two shuffles in a row are one shuffle: shuffling by [p] and then
    by [q] gives the array that shuffling by [i ↦ p[q[i]]] gives. *)
Theorem shuffle_primitives_compose {Primitive : Type}
    (value_initialized : Primitive) (moved_from : Primitive → Primitive)
    (prims : list Primitive) (p q : list nat) (count : nat) :
  length prims = count → p ≡ₚ seq 0 count → q ≡ₚ seq 0 count →
  ∃ r r', shuffle_primitives value_initialized moved_from prims p count = Some r
          ∧ shuffle_primitives value_initialized moved_from r q count = Some r'
          ∧ shuffle_primitives value_initialized moved_from prims
              (compose_indices p q) count = Some r'.
Proof. apply shuffle_compose. Qed.

Lemma shuffle_primitives_compose_witness :
  ∃ r r', shuffle_primitives 0 (λ _, 0) [10; 11; 12; 13] [2; 0; 3; 1] 4 = Some r
          ∧ shuffle_primitives 0 (λ _, 0) r [3; 2; 1; 0] 4 = Some r'
          ∧ shuffle_primitives 0 (λ _, 0) [10; 11; 12; 13]
              (compose_indices [2; 0; 3; 1] [3; 2; 1; 0]) 4 = Some r'.
Proof.
  apply (shuffle_primitives_compose 0 (λ _, 0) [10; 11; 12; 13] [2; 0; 3; 1] [3; 2; 1; 0] 4);
    [reflexivity | |]; cbn; apply (bool_decide_unpack _); vm_compute; reflexivity.
Defined.

(** X20.  A shuffle is undone by shuffling with the inverse permutation:
    if [p[q[i]] = i] for every [i], shuffling by [p] and then by [q] gives
    the original array back. *)
Theorem shuffle_primitives_undo {Primitive : Type}
    (value_initialized : Primitive) (moved_from : Primitive → Primitive)
    (prims : list Primitive) (p q : list nat) (count : nat) :
  length prims = count → p ≡ₚ seq 0 count → q ≡ₚ seq 0 count →
  compose_indices p q = seq 0 count →
  ∃ r, shuffle_primitives value_initialized moved_from prims p count = Some r
       ∧ shuffle_primitives value_initialized moved_from r q count = Some prims.
Proof.
  intros Hlen Hp Hq Hinv.
  destruct (shuffle_compose value_initialized moved_from prims p q count Hlen Hp Hq)
    as (r & r' & Hr & Hr' & Hc).
  exists r. split; [exact Hr |]. rewrite Hr'. rewrite Hinv in Hc. subst count.
  rewrite shuffle_identity in Hc. congruence.
Qed.

Lemma shuffle_primitives_undo_witness :
  ∃ r, shuffle_primitives 0 (λ _, 0) [10; 11; 12; 13] [2; 0; 3; 1] 4 = Some r
       ∧ shuffle_primitives 0 (λ _, 0) r [1; 3; 0; 2] 4 = Some [10; 11; 12; 13].
Proof.
  apply (shuffle_primitives_undo 0 (λ _, 0) [10; 11; 12; 13] [2; 0; 3; 1] [1; 3; 0; 2] 4);
    [reflexivity | | | reflexivity];
    cbn; apply (bool_decide_unpack _); vm_compute; reflexivity.
Defined.

(** ** [compute_bounding_boxes_and_centers] on any count *)

Section ExtractionGeneral.
Context {Primitive BoundingBox Vector3 : Type}.
Variable bounding_box : Primitive → BoundingBox.
Variable center : Primitive → Vector3.
Variable empty_box : BoundingBox.
Variable zero_vector : Vector3.
Variable prims : list Primitive.
Variable count : nat.

(** Invariant of the sequential loop. *)
Abbreviation extracted i s :=
  (input s = prims ∧ length (bboxes s) = count ∧ length (centers s) = count
   ∧ (∀ k, k < i → bboxes s !! k = bounding_box <$> prims !! k)
   ∧ (∀ k, k < i → centers s !! k = center <$> prims !! k)).

Lemma extraction_body_step (i : nat) (s : extraction_state) :
  extracted i s → i < count →
  (length prims ≤ i ∧ extraction_body bounding_box center i s = None)
  ∨ (i < length prims
     ∧ ∃ s', extraction_body bounding_box center i s = Some s' ∧ extracted (S i) s').
Proof.
  intros (Hin & Hb & Hc & Hboxes & Hcenters) Hi.
  unfold extraction_body. cbn [exec]. rewrite Hin.
  destruct (prims !! i) as [p |] eqn:Hp; cbn;
    [| left; split; [now apply lookup_ge_None_1 | reflexivity]].
  right. split; [exact (lookup_lt_Some _ _ _ Hp) |].
  rewrite store_in_range by lia. cbn. rewrite Hp. cbn.
  rewrite store_in_range by lia. cbn.
  eexists. split; [reflexivity |]. cbn. rewrite !length_insert.
  conjuncts; [reflexivity | exact Hb | exact Hc | |]; intros k Hk;
    (destruct (decide (k = i)) as [-> | Hne];
     [rewrite list_lookup_insert_eq by lia; now rewrite Hp
     | rewrite list_lookup_insert_ne by lia; auto with lia]).
Qed.

Lemma extracted_init :
  extracted 0 (extraction_init empty_box zero_vector prims count).
Proof.
  cbn. rewrite !length_replicate.
  conjuncts; [reflexivity | reflexivity | reflexivity | |]; intros k Hk; lia.
Qed.

Lemma compute_prefix :
  count ≤ length prims →
  compute_bounding_boxes_and_centers bounding_box center empty_box zero_vector prims count
  = Some (bounding_box <$> take count prims, center <$> take count prims).
Proof.
  intros Hcount. unfold compute_bounding_boxes_and_centers, extraction_run.
  destruct (for_range_invariant (extraction_body bounding_box center)
              (λ i s, extracted i s) count 0 _ extracted_init)
    as (s & Hs & _ & Hb & Hc & Hboxes & Hcenters).
  - intros i t Hi Ht.
    destruct (extraction_body_step i t Ht) as [[Hout _] | [_ Hok]]; [lia | lia | exact Hok].
  - rewrite Hs. cbn [mbind option_bind]. do 2 f_equal; apply list_eq; intros k;
      rewrite list_lookup_fmap;
      (destruct (decide (k < count)) as [Hk | Hk];
       [rewrite lookup_take_lt by exact Hk; auto
       | rewrite lookup_take_ge by lia; apply lookup_ge_None_2; lia]).
Qed.

Lemma compute_out_of_bounds :
  length prims < count →
  compute_bounding_boxes_and_centers bounding_box center empty_box zero_vector prims count
  = None.
Proof.
  intros Hcount. unfold compute_bounding_boxes_and_centers, extraction_run.
  rewrite (for_range_stuck (extraction_body bounding_box center)
             (λ i s, extracted i s) count 0 _ extracted_init); [reflexivity | |].
  - intros k t Hk Ht.
    destruct (extraction_body_step k t Ht) as [[_ Hnone] | [_ Hok]];
      [lia | now left | now right].
  - exists (length prims). split; [lia |]. intros t Ht.
    destruct (extraction_body_step (length prims) t Ht) as [[_ Hnone] | [Hlt _]];
      [lia | exact Hnone | lia].
Qed.
End ExtractionGeneral.

(** X21.  With a count below the length of the array the function handles
    the first [count] primitives only: it returns their boxes and centres,
    in order, in two arrays of [count] elements. *)
Theorem compute_bounding_boxes_and_centers_prefix {Primitive BoundingBox Vector3 : Type}
    (bounding_box : Primitive → BoundingBox) (center : Primitive → Vector3)
    (empty_box : BoundingBox) (zero_vector : Vector3)
    (prims : list Primitive) (count : nat) :
  count ≤ length prims →
  compute_bounding_boxes_and_centers bounding_box center empty_box zero_vector prims count
  = Some (bounding_box <$> take count prims, center <$> take count prims).
Proof. apply compute_prefix. Qed.

Lemma compute_bounding_boxes_and_centers_prefix_witness :
  compute_bounding_boxes_and_centers (λ a, (a, S a)) (λ a, S (2 * a)) (0, 0) 0 [4; 7; 1] 2
  = Some ((λ a, (a, S a)) <$> take 2 [4; 7; 1], (λ a, S (2 * a)) <$> take 2 [4; 7; 1]).
Proof.
  apply (compute_bounding_boxes_and_centers_prefix
           (λ a, (a, S a)) (λ a, S (2 * a)) (0, 0) 0 [4; 7; 1] 2).
  cbn. lia.
Defined.

(** X22.  With a count above the length of the array the loop reads
    [primitives[i]] past the end: the call is undefined. *)
Theorem compute_bounding_boxes_and_centers_out_of_bounds
    {Primitive BoundingBox Vector3 : Type}
    (bounding_box : Primitive → BoundingBox) (center : Primitive → Vector3)
    (empty_box : BoundingBox) (zero_vector : Vector3)
    (prims : list Primitive) (count : nat) :
  length prims < count →
  compute_bounding_boxes_and_centers bounding_box center empty_box zero_vector prims count
  = None.
Proof. apply compute_out_of_bounds. Qed.

Lemma compute_bounding_boxes_and_centers_out_of_bounds_witness :
  compute_bounding_boxes_and_centers (λ a, (a, S a)) (λ a, S (2 * a)) (0, 0) 0 [4; 7; 1] 4
  = None.
Proof.
  apply (compute_bounding_boxes_and_centers_out_of_bounds
           (λ a, (a, S a)) (λ a, S (2 * a)) (0, 0) 0 [4; 7; 1] 4).
  cbn. lia.
Defined.

(** ** Extraction and shuffle together *)

(** X23.  Extraction commutes with the shuffle: the boxes and centres of
    the shuffled primitives are the boxes and centres of the original
    primitives, shuffled by the same indices. *)
Theorem extraction_commutes_with_shuffle {Primitive BoundingBox Vector3 : Type}
    (bounding_box : Primitive → BoundingBox) (center : Primitive → Vector3)
    (empty_box : BoundingBox) (zero_vector : Vector3)
    (value_initialized : Primitive) (moved_from : Primitive → Primitive)
    (moved_box : BoundingBox → BoundingBox) (moved_vector : Vector3 → Vector3)
    (prims : list Primitive) (indices : list nat) (count : nat) :
  length prims = count → indices ≡ₚ seq 0 count →
  ∃ shuffled boxes cents shuffled_boxes shuffled_cents,
    shuffle_primitives value_initialized moved_from prims indices count = Some shuffled
    ∧ compute_bounding_boxes_and_centers bounding_box center empty_box zero_vector
        prims count = Some (boxes, cents)
    ∧ shuffle_primitives empty_box moved_box boxes indices count = Some shuffled_boxes
    ∧ shuffle_primitives zero_vector moved_vector cents indices count = Some shuffled_cents
    ∧ compute_bounding_boxes_and_centers bounding_box center empty_box zero_vector
        shuffled count = Some (shuffled_boxes, shuffled_cents).
Proof.
  intros Hlen Hperm.
  destruct (shuffle_primitives_result value_initialized moved_from prims indices count
              Hlen Hperm) as (r & Hr & Hlenr & Hreadr & _).
  assert (length (bounding_box <$> prims) = count) as Hlenb by now rewrite length_fmap.
  assert (length (center <$> prims) = count) as Hlenc by now rewrite length_fmap.
  destruct (shuffle_primitives_result empty_box moved_box (bounding_box <$> prims)
              indices count Hlenb Hperm) as (rb & Hrb & Hlenrb & Hreadb & _).
  destruct (shuffle_primitives_result zero_vector moved_vector (center <$> prims)
              indices count Hlenc Hperm) as (rc & Hrc & Hlenrc & Hreadc & _).
  exists r, (bounding_box <$> prims), (center <$> prims), rb, rc.
  conjuncts; [exact Hr | | exact Hrb | exact Hrc |].
  - now apply compute_bounding_boxes_and_centers_value.
  - rewrite (compute_bounding_boxes_and_centers_value bounding_box center
               empty_box zero_vector r count Hlenr).
    assert (length indices = count) as Hleni by now rewrite Hperm, length_seq.
    do 2 f_equal; apply list_eq; intros i; rewrite list_lookup_fmap;
      (destruct (decide (i < count)) as [Hi | Hi];
       [destruct (lookup_lt_is_Some_2 indices i) as [j Hj]; [lia |]
       | rewrite !lookup_ge_None_2 by lia; reflexivity]).
    + now rewrite (Hreadr i j Hj), (Hreadb i j Hj), list_lookup_fmap.
    + now rewrite (Hreadr i j Hj), (Hreadc i j Hj), list_lookup_fmap.
Qed.

Lemma extraction_commutes_with_shuffle_witness :
  ∃ shuffled boxes cents shuffled_boxes shuffled_cents,
    shuffle_primitives 0 (λ _, 0) [4; 7; 1] [2; 0; 1] 3 = Some shuffled
    ∧ compute_bounding_boxes_and_centers (λ a, (a, S a)) (λ a, S (2 * a)) (0, 0) 0
        [4; 7; 1] 3 = Some (boxes, cents)
    ∧ shuffle_primitives (0, 0) (λ _, (0, 0)) boxes [2; 0; 1] 3 = Some shuffled_boxes
    ∧ shuffle_primitives 0 (λ _, 0) cents [2; 0; 1] 3 = Some shuffled_cents
    ∧ compute_bounding_boxes_and_centers (λ a, (a, S a)) (λ a, S (2 * a)) (0, 0) 0
        shuffled 3 = Some (shuffled_boxes, shuffled_cents).
Proof.
  apply (extraction_commutes_with_shuffle (λ a, (a, S a)) (λ a, S (2 * a)) (0, 0) 0
           0 (λ _, 0) (λ _, (0, 0)) (λ _, 0) [4; 7; 1] [2; 0; 1] 3);
    [reflexivity |]. cbn. apply (bool_decide_unpack _). vm_compute. reflexivity.
Defined.

(** ** Workers of the parallel loop *)

(** X24.  Any batch of loop statements over valid slots, run from arrays of
    the right shape, completes; it leaves the input and every slot it does
    not name as they were; and the state it reaches does not depend on the
    order of the batch.  So workers given disjoint sets of iterations never
    disturb each other, also before the loop is complete. *)
Theorem exec_all_frame_and_order {Primitive BoundingBox Vector3 : Type}
    (bounding_box : Primitive → BoundingBox) (center : Primitive → Vector3)
    (prims : list Primitive) (count : nat)
    (batch : list statement) (s : @extraction_state Primitive BoundingBox Vector3) :
  length prims = count → shaped prims count s →
  (∀ st, st ∈ batch → slot st < count) →
  ∃ s', exec_all bounding_box center batch s = Some s'
        ∧ input s' = input s
        ∧ (∀ i, StoreBox i ∉ batch → bboxes s' !! i = bboxes s !! i)
        ∧ (∀ i, StoreCenter i ∉ batch → centers s' !! i = centers s !! i)
        ∧ ∀ batch', batch' ≡ₚ batch → exec_all bounding_box center batch' s = Some s'.
Proof.
  intros Hlen Hshape Hslots.
  destruct (exec_all_slots bounding_box center prims count Hlen batch s Hshape Hslots)
    as (s' & Hs' & (Hin' & Hb' & Hc') & Hboxes & Hcenters).
  exists s'. conjuncts; [exact Hs' | | | |].
  - destruct Hshape as (Hin & _). congruence.
  - intros i Hi. rewrite Hboxes. now rewrite decide_False.
  - intros i Hi. rewrite Hcenters. now rewrite decide_False.
  - intros batch' Hperm.
    destruct (exec_all_slots bounding_box center prims count Hlen batch' s Hshape)
      as (s'' & Hs'' & (Hin'' & Hb'' & Hc'') & Hboxes' & Hcenters').
    { intros st Hst. apply Hslots. now rewrite <- Hperm. }
    rewrite Hs''. f_equal.
    destruct s' as [in1 b1 c1], s'' as [in2 b2 c2]. cbn in *.
    f_equal; [congruence | |]; apply list_eq; intros i.
    + rewrite Hboxes, Hboxes'.
      destruct (decide (StoreBox i ∈ batch)) as [Hi | Hi].
      * rewrite decide_True by now rewrite Hperm. reflexivity.
      * rewrite decide_False by now rewrite Hperm. reflexivity.
    + rewrite Hcenters, Hcenters'.
      destruct (decide (StoreCenter i ∈ batch)) as [Hi | Hi].
      * rewrite decide_True by now rewrite Hperm. reflexivity.
      * rewrite decide_False by now rewrite Hperm. reflexivity.
Qed.

Lemma batch_slots_in_range :
  ∀ st, st ∈ [StoreCenter 2; StoreBox 0] → slot st < 3.
Proof.
  intros st Hst. apply elem_of_cons in Hst as [-> | Hst]; [cbn; lia |].
  apply list_elem_of_singleton in Hst as ->. cbn. lia.
Defined.

Lemma exec_all_frame_and_order_witness :
  ∃ s', exec_all (λ a, (a, S a)) (λ a, S (2 * a)) [StoreCenter 2; StoreBox 0]
          (extraction_init (0, 0) 0 [4; 7; 1] 3) = Some s'
        ∧ input s' = input (extraction_init (0, 0) 0 [4; 7; 1] 3)
        ∧ (∀ i, StoreBox i ∉ [StoreCenter 2; StoreBox 0] →
             bboxes s' !! i = bboxes (extraction_init (0, 0) 0 [4; 7; 1] 3) !! i)
        ∧ (∀ i, StoreCenter i ∉ [StoreCenter 2; StoreBox 0] →
             centers s' !! i = centers (extraction_init (0, 0) 0 [4; 7; 1] 3) !! i)
        ∧ ∀ batch', batch' ≡ₚ [StoreCenter 2; StoreBox 0] →
            exec_all (λ a, (a, S a)) (λ a, S (2 * a)) batch'
              (extraction_init (0, 0) 0 [4; 7; 1] 3) = Some s'.
Proof.
  apply (exec_all_frame_and_order (λ a, (a, S a)) (λ a, S (2 * a)) [4; 7; 1] 3
           [StoreCenter 2; StoreBox 0] (extraction_init (0, 0) 0 [4; 7; 1] 3));
    [reflexivity | | exact batch_slots_in_range].
  unfold shaped. cbn. auto.
Defined.
